(** * Calavera Literaria: the two playback drivers

    A shallow embedding of the playback logic of
    [src/components/CalaveraPlayer.tsx] (the stanza audio sequencer) and of
    the speech-synthesis controller (the speech utterance driver), with the
    browser primitives they call (audio elements, timers, the console, the
    speech engine) modelled as explicit host state.

    The browser is single threaded: every handler runs to completion on one
    event, so a run is a list of events and every handler is a function from
    state to state. *)

From stdpp Require Import base decidable option list strings pretty gmap.
From Stdlib Require Import Ascii QArith.

Open Scope string_scope.
Open Scope list_scope.
Open Scope nat_scope.

(** [type PlayState = 'idle' | 'playing' | 'paused' | 'ended'] (the speech
    driver calls the same type [AudioState]). *)
Inductive PlayState := idle | playing | paused | ended.

#[global] Instance PlayState_eq_dec : EqDecision PlayState.
Proof. solve_decision. Defined.

(** ** The stanza audio sequencer, [CalaveraPlayer] *)
Module Player.

(** *** Host objects *)

(** Audio elements and timers live in host tables; a handle is the position
    of the object in its table.  A handle is an object reference, respectively
    a positive timer id, so [Some h] is what JavaScript tests as truthy. *)
Abbreviation audio_id := nat.
Abbreviation timer_id := nat.

(** The two [.catch] handlers attached to the promise of [audio.play()]:
    the one in [handleCanPlay] and the one in [handleResume]. *)
Inductive Catch := CatchCanPlay | CatchResume.

(** Loading progress of an audio element, as far as its events show it. *)
Inductive Media := Loading | Ready | Failed.

#[global] Instance Media_eq_dec : EqDecision Media.
Proof. solve_decision. Defined.

(** One [new Audio(audioPath)] of [playStanza], together with the variables of
    the [playStanza] call that created it, which its three listeners and its
    probe timer close over: [index], [audioLoaded] and [fallbackTimer]. *)
Record Audio := mkAudio {
  src : string;
  el_paused : bool;              (* HTMLMediaElement.paused *)
  media : Media;
  promises : list Catch;         (* pending promises of play() *)
  index : nat;
  audioLoaded : bool;
  fallbackTimer : option timer_id
}.

(** The three closures handed to [setTimeout]: the 500 ms probe of the audio
    created by a [playStanza] call, the 10 s fallback [() => playStanza(index + 1)]
    (it carries [index + 1]), and the [() => handlePlay()] of [handleReplay]. *)
Inductive Callback :=
| ProbeTimeout (a : audio_id)
| FallbackAdvance (next : nat)
| DeferredPlay.

Record Timer := mkTimer {
  callback : Callback;
  delay : N;                     (* milliseconds, as passed to setTimeout *)
  due : N;                       (* clock value from which it may fire *)
  pending : bool
}.

(** *** Component and host state *)
Record State := mkState {
  (* useState *)
  playState : PlayState;
  currentStanzaIndex : nat;
  showAll : bool;
  (* useRef *)
  currentAudioRef : option audio_id;
  fallbackTimerRef : option timer_id;
  (* host *)
  audios : list Audio;
  timers : list Timer;
  now : N;                       (* the clock, in milliseconds *)
  console : list string
}.

Definition setPlayState (p : PlayState) (s : State) : State :=
  mkState p (currentStanzaIndex s) (showAll s) (currentAudioRef s)
    (fallbackTimerRef s) (audios s) (timers s) (now s) (console s).

Definition setCurrentStanzaIndex (i : nat) (s : State) : State :=
  mkState (playState s) i (showAll s) (currentAudioRef s)
    (fallbackTimerRef s) (audios s) (timers s) (now s) (console s).

Definition setShowAll (b : bool) (s : State) : State :=
  mkState (playState s) (currentStanzaIndex s) b (currentAudioRef s)
    (fallbackTimerRef s) (audios s) (timers s) (now s) (console s).

Definition set_currentAudioRef (r : option audio_id) (s : State) : State :=
  mkState (playState s) (currentStanzaIndex s) (showAll s) r
    (fallbackTimerRef s) (audios s) (timers s) (now s) (console s).

Definition set_fallbackTimerRef (r : option timer_id) (s : State) : State :=
  mkState (playState s) (currentStanzaIndex s) (showAll s) (currentAudioRef s)
    r (audios s) (timers s) (now s) (console s).

Definition set_audios (l : list Audio) (s : State) : State :=
  mkState (playState s) (currentStanzaIndex s) (showAll s) (currentAudioRef s)
    (fallbackTimerRef s) l (timers s) (now s) (console s).

Definition set_timers (l : list Timer) (s : State) : State :=
  mkState (playState s) (currentStanzaIndex s) (showAll s) (currentAudioRef s)
    (fallbackTimerRef s) (audios s) l (now s) (console s).

Definition set_now (t : N) (s : State) : State :=
  mkState (playState s) (currentStanzaIndex s) (showAll s) (currentAudioRef s)
    (fallbackTimerRef s) (audios s) (timers s) t (console s).

(** [console.warn(msg, ...)] *)
Definition warn (msg : string) (s : State) : State :=
  mkState (playState s) (currentStanzaIndex s) (showAll s) (currentAudioRef s)
    (fallbackTimerRef s) (audios s) (timers s) (now s) (console s ++ [msg]).

(** The state of a freshly mounted component on a fresh page. *)
Definition init : State :=
  mkState idle 0 false None None [] [] 0%N [].

(** *** Host primitives *)

(** [setTimeout(cb, ms)]: a new pending timer, due [ms] from now; returns its id. *)
Definition setTimeout (cb : Callback) (ms : N) (s : State) : timer_id * State :=
  (length (timers s),
   set_timers (timers s ++ [mkTimer cb ms (now s + ms)%N true]) s).

Definition cancel (tm : Timer) : Timer :=
  mkTimer (callback tm) (delay tm) (due tm) false.

(** [clearTimeout(t)]: the timer, if still pending, will not fire. *)
Definition clearTimeout (t : timer_id) (s : State) : State :=
  set_timers (alter cancel t (timers s)) s.

(** [new Audio(path)], allocated by the [playStanza] call for [i]. *)
Definition newAudio (path : string) (i : nat) (s : State) : audio_id * State :=
  (length (audios s),
   set_audios (audios s ++ [mkAudio path true Loading [] i false None]) s).

Definition on_audio (f : Audio -> Audio) (a : audio_id) (s : State) : State :=
  set_audios (alter f a (audios s)) s.

(** [audio.pause()] *)
Definition el_pause (au : Audio) : Audio :=
  mkAudio (src au) true (media au) (promises au)
    (index au) (audioLoaded au) (fallbackTimer au).

(** [audio.play()]: the element leaves the paused state and the returned
    promise, with the given [.catch], is pending. *)
Definition el_play (c : Catch) (au : Audio) : Audio :=
  mkAudio (src au) false (media au) (promises au ++ [c])
    (index au) (audioLoaded au) (fallbackTimer au).

Definition set_media (m : Media) (au : Audio) : Audio :=
  mkAudio (src au) (el_paused au) m (promises au)
    (index au) (audioLoaded au) (fallbackTimer au).

Definition set_audioLoaded (b : bool) (au : Audio) : Audio :=
  mkAudio (src au) (el_paused au) (media au) (promises au)
    (index au) b (fallbackTimer au).

Definition set_fallbackTimer (t : option timer_id) (au : Audio) : Audio :=
  mkAudio (src au) (el_paused au) (media au) (promises au)
    (index au) (audioLoaded au) t.

(** A property of the audio element behind a handle. *)
Definition audio_can (P : Audio -> bool) (a : audio_id) (s : State) : bool :=
  match audios s !! a with
  | Some au => P au
  | None => false
  end.

(** The promise of a [play()] settles: it is taken off the pending list; on
    rejection playback did not start, so the element is paused. *)
Definition settle (rejected : bool) (au : Audio) : Audio :=
  mkAudio (src au) (if rejected then true else el_paused au) (media au)
    (tail (promises au)) (index au) (audioLoaded au) (fallbackTimer au).

(** The element reaches the end of its resource: the host pauses it. *)
Definition finish (au : Audio) : Audio := el_pause au.

Section Sequencer.

(** [interface CalaveraPlayerProps { stanzas: string[][] }] *)
Variable stanzas : list (list string).

(** [`/sounds/stanza${index + 1}.wav`] *)
Definition audioPath (i : nat) : string :=
  "/sounds/stanza" +:+ pretty (i + 1) +:+ ".wav".

(** *** [playStanza] and the closures it creates *)

Definition playStanza (i : nat) (s : State) : State :=
  if decide (length stanzas <= i) then
    setPlayState ended s
  else
    let s := setCurrentStanzaIndex i s in
    let '(audio, s) := newAudio (audioPath i) i s in
    let s := set_currentAudioRef (Some audio) s in
    (* let audioLoaded = false; let fallbackTimer = null: see [newAudio];
       the three addEventListener calls: see [dispatch] *)
    let '(_, s) := setTimeout (ProbeTimeout audio) 500%N s in
    s.

(** The closures below belong to the [playStanza] call that created audio
    [a]; they do nothing on a handle that names no audio (there is none). *)
Definition with_audio (a : audio_id) (k : Audio -> State -> State) (s : State) : State :=
  match audios s !! a with
  | Some au => k au s
  | None => s
  end.

Definition handleEnded (a : audio_id) : State -> State :=
  with_audio a (fun au s =>
    let s := match fallbackTimer au with
             | Some t => clearTimeout t s
             | None => s
             end in
    playStanza (index au + 1) s).

Definition useFallback (a : audio_id) : State -> State :=
  with_audio a (fun au s =>
    let '(t, s) := setTimeout (FallbackAdvance (index au + 1)) 10000%N s in
    let s := on_audio (set_fallbackTimer (Some t)) a s in
    set_fallbackTimerRef (Some t) s).

Definition handleCanPlay (a : audio_id) : State -> State :=
  with_audio a (fun _ s =>
    let s := on_audio (set_audioLoaded true) a s in
    on_audio (el_play CatchCanPlay) a s).

Definition handleError (a : audio_id) : State -> State :=
  with_audio a (fun au s =>
    let s := warn ("No se pudo cargar audio para estrofa " +:+ pretty (index au + 1)
                   +:+ ", usando fallback de 10 segundos") s in
    useFallback a s).

(** [audio.play().catch((err) => { console.warn(...); useFallback(); })] *)
Definition canPlayCatch (a : audio_id) : State -> State :=
  with_audio a (fun au s =>
    let s := warn ("Error reproduciendo audio de estrofa " +:+ pretty (index au + 1)
                   +:+ ":") s in
    useFallback a s).

(** [setTimeout(() => { if (!audioLoaded) handleError(); }, 500)] *)
Definition probe (a : audio_id) : State -> State :=
  with_audio a (fun au s =>
    if audioLoaded au then s else handleError a s).

(** *** The click handlers *)

Definition handlePlay (s : State) : State :=
  let s := setPlayState playing s in
  let s := setCurrentStanzaIndex 0 s in
  let s := setShowAll false s in
  playStanza 0 s.

Definition handlePause (s : State) : State :=
  let s := match currentAudioRef s with
           | Some a => on_audio el_pause a s
           | None => s
           end in
  let s := match fallbackTimerRef s with
           | Some t => clearTimeout t s
           | None => s
           end in
  setPlayState paused s.

(** [.catch((err) => { console.warn('Error al reanudar:', err); })] *)
Definition resumeCatch (s : State) : State :=
  warn "Error al reanudar:" s.

Definition handleResume (s : State) : State :=
  let s := setPlayState playing s in
  match currentAudioRef s with
  | Some a =>
      if audio_can el_paused a s then on_audio (el_play CatchResume) a s
      else playStanza (currentStanzaIndex s) s
  | None => playStanza (currentStanzaIndex s) s
  end.

Definition handleStop (s : State) : State :=
  let s := match currentAudioRef s with
           | Some a => set_currentAudioRef None (on_audio el_pause a s)
           | None => s
           end in
  let s := match fallbackTimerRef s with
           | Some t => clearTimeout t s
           | None => s
           end in
  let s := setPlayState idle s in
  setCurrentStanzaIndex 0 s.

Definition handleShowAll (s : State) : State :=
  setShowAll true s.

Definition handleReplay (s : State) : State :=
  let s := handleStop s in
  snd (setTimeout DeferredPlay 100%N s).

(** *** Events and the transition function *)

Inductive Event :=
(* buttons *)
| ClickPlay | ClickPause | ClickResume | ClickStop
| ClickShowAll | ClickBack | ClickReplay
(* audio elements *)
| AudioCanPlay (a : audio_id)
| AudioError (a : audio_id)
| AudioEnded (a : audio_id)
| PlayResolved (a : audio_id)
| PlayRejected (a : audio_id)
(* the clock *)
| TimerFires (t : timer_id)
| Elapse (ms : N).

Definition run_callback (cb : Callback) : State -> State :=
  match cb with
  | ProbeTimeout a => probe a
  | FallbackAdvance next => playStanza next
  | DeferredPlay => handlePlay
  end.

(** What the host does on an event, followed by the listener or handler the
    component registered for it. *)
Definition dispatch (e : Event) (s : State) : State :=
  match e with
  | ClickPlay => handlePlay s
  | ClickPause => handlePause s
  | ClickResume => handleResume s
  | ClickStop => handleStop s
  | ClickShowAll => handleShowAll s
  | ClickBack => setShowAll false s
  | ClickReplay => handleReplay s
  | AudioCanPlay a => handleCanPlay a (on_audio (set_media Ready) a s)
  | AudioError a => handleError a (on_audio (set_media Failed) a s)
  | AudioEnded a => handleEnded a (on_audio finish a s)
  | PlayResolved a => on_audio (settle false) a s
  | PlayRejected a =>
      match audios s !! a ≫= (fun au => head (promises au)) with
      | Some CatchCanPlay => canPlayCatch a (on_audio (settle true) a s)
      | Some CatchResume => resumeCatch (on_audio (settle true) a s)
      | None => s
      end
  | TimerFires t =>
      match timers s !! t with
      | Some tm => run_callback (callback tm) (clearTimeout t s)
      | None => s
      end
  | Elapse ms => set_now (now s + ms)%N s
  end.

(** The element is playing: loaded, not paused, its play() settled. *)
Definition is_playing (au : Audio) : bool :=
  negb (el_paused au) && bool_decide (media au = Ready)
  && bool_decide (promises au = []).

(** Which events the page can receive in a state: a button can be clicked
    when the render shows it, a timer fires when pending and due, an audio
    element raises the events its loading and playback allow. *)
Definition enabled (s : State) (e : Event) : bool :=
  match e with
  | ClickPlay => bool_decide (playState s = idle) && negb (showAll s)
  | ClickPause => bool_decide (playState s = playing)
  | ClickResume => bool_decide (playState s = paused)
  | ClickStop => bool_decide (playState s = playing) || bool_decide (playState s = paused)
  | ClickShowAll => negb (showAll s) && negb (bool_decide (playState s = idle))
  | ClickBack =>
      showAll s && (bool_decide (playState s = idle) || bool_decide (playState s = ended))
  | ClickReplay => negb (showAll s) && bool_decide (playState s = ended)
  | AudioCanPlay a => audio_can (fun au => bool_decide (media au = Loading)) a s
  | AudioError a => audio_can (fun au => bool_decide (media au = Loading)) a s
  | AudioEnded a => audio_can is_playing a s
  | PlayResolved a =>
      audio_can (fun au => negb (el_paused au) && bool_decide (media au = Ready)
                           && negb (bool_decide (promises au = []))) a s
  | PlayRejected a => audio_can (fun au => negb (bool_decide (promises au = []))) a s
  | TimerFires t =>
      match timers s !! t with
      | Some tm => pending tm && bool_decide (due tm <= now s)%N
      | None => false
      end
  | Elapse _ => true
  end.

Definition step (s : State) (e : Event) (s' : State) : Prop :=
  enabled s e = true ∧ s' = dispatch e s.

(** The states the page can be in. *)
Inductive reachable : State -> Prop :=
| reachable_init : reachable init
| reachable_step s e s' : reachable s -> step s e s' -> reachable s'.

(** Running a schedule of events, refusing one that cannot happen. *)
Fixpoint run (es : list Event) (s : State) : option State :=
  match es with
  | [] => Some s
  | e :: es => if enabled s e then run es (dispatch e s) else None
  end.

(** The stanza indices for which [playStanza] created an audio element, in
    the order of creation: the stanzas entered so far. *)
Definition entered (s : State) : list nat := index <$> audios s.

(** A handler that leaves the sequencing alone: the play state, the index,
    the rendering mode, the held handle and the stanzas entered are as before. *)
Definition same_view (s s' : State) : Prop :=
  playState s' = playState s /\
  currentStanzaIndex s' = currentStanzaIndex s /\
  showAll s' = showAll s /\
  currentAudioRef s' = currentAudioRef s /\
  entered s' = entered s.

(** The events of a natural playback, after the click on play: no further
    click, no [error] and no rejected play; elements load, play and end, time
    passes and timers fire. *)
Definition natural (e : Event) : bool :=
  match e with
  | AudioCanPlay _ | PlayResolved _ | AudioEnded _ | TimerFires _ | Elapse _ => true
  | _ => false
  end.

(** The events of a timely playback: a natural playback in which every
    element raises [canplay] within the first 500 ms, that is before its
    probe fires.  The only timers that fire are the 500 ms probes, each after
    the [canplay] of its element (by then [audioLoaded] is true). *)
Definition timely (s : State) (e : Event) : bool :=
  match e with
  | AudioCanPlay _ | PlayResolved _ | AudioEnded _ | Elapse _ => true
  | TimerFires t =>
      match callback <$> timers s !! t with
      | Some (ProbeTimeout a) => audio_can audioLoaded a s
      | _ => false
      end
  | _ => false
  end.

(** An element that has played to its end. *)
Definition finished (au : Audio) : Prop :=
  el_paused au = true /\ media au = Ready /\ promises au = [].

(** The events whose handler is [handlePlay]: the click on play, and the
    timer [handleReplay] set for its deferred [handlePlay]. *)
Definition runs_handlePlay (e : Event) (s : State) : bool :=
  match e with
  | ClickPlay => true
  | TimerFires t =>
      match callback <$> timers s !! t with
      | Some DeferredPlay => true
      | _ => false
      end
  | _ => false
  end.

(** The three ways the audio of a stanza fails: the element raises [error],
    the 500 ms probe (timer [t]) expires before [canplay], or the element
    loaded and the [play()] of [handleCanPlay] is rejected. *)
Inductive Failure := LoadError | ProbeExpired (t : timer_id) | PlayRefused.

Definition failure_event (f : Failure) (a : audio_id) : Event :=
  match f with
  | LoadError => AudioError a
  | ProbeExpired t => TimerFires t
  | PlayRefused => PlayRejected a
  end.

Definition fails (f : Failure) (a : audio_id) (s : State) : Prop :=
  match f with
  | LoadError => True
  | ProbeExpired t =>
      callback <$> timers s !! t = Some (ProbeTimeout a) /\
      audio_can audioLoaded a s = false
  | PlayRefused =>
      audios s !! a ≫= (fun au => head (promises au)) = Some CatchCanPlay
  end.

(** The fallback timer armed at clock value [t] for stanza index [i]. *)
Definition fallback_of (i : nat) (t : N) : Timer :=
  mkTimer (FallbackAdvance (i + 1)) 10000 (t + 10000) true.

(** The warning logged for stanza index [i]. *)
Definition warning (f : Failure) (i : nat) : string :=
  match f with
  | PlayRefused => "Error reproduciendo audio de estrofa " +:+ pretty (i + 1) +:+ ":"
  | _ => "No se pudo cargar audio para estrofa " +:+ pretty (i + 1)
         +:+ ", usando fallback de 10 segundos"
  end.

(** The fallback timers that are armed and have neither fired nor been
    cleared. *)
Definition is_pending_fallback (tm : Timer) : bool :=
  match callback tm with
  | FallbackAdvance _ => pending tm
  | _ => false
  end.

Definition pending_fallbacks (s : State) : list Timer :=
  filter (fun tm => is_pending_fallback tm = true) (timers s).

(** Running a schedule of timely events. *)
Fixpoint run_timely (es : list Event) (s : State) : option State :=
  match es with
  | [] => Some s
  | e :: es =>
      if enabled s e && timely s e then run_timely es (dispatch e s) else None
  end.

(** What holds throughout a timely playback: the stanzas were entered in
    order, each once; only probes were ever scheduled; every element but the
    one of the current stanza has played to its end; while playing, the
    index shown is the one of the stanza entered last. *)
Definition timely_inv (s : State) : Prop :=
  entered s = seq 0 (length (audios s)) /\
  length (audios s) <= length stanzas /\
  (forall t tm, timers s !! t = Some tm -> exists a, callback tm = ProbeTimeout a) /\
  (forall a au, audios s !! a = Some au -> fallbackTimer au = None) /\
  (forall a au, audios s !! a = Some au -> S a < length (audios s) -> finished au) /\
  (playState s = playing \/
   (playState s = ended /\ length (audios s) = length stanzas /\
    forall a au, audios s !! a = Some au -> finished au)) /\
  (playState s = playing -> S (currentStanzaIndex s) = length (audios s)).

(** The displayed index is one of the list, or 0 when the list is empty. *)
Definition in_range (s : State) : Prop :=
  currentStanzaIndex s <= Nat.max (length stanzas - 1) 0.

(** While playing or paused, the sequencer holds an audio element and shows
    a stanza of the list; the handle it holds always names an element. *)
Definition holds_audio (s : State) : Prop :=
  (forall a, currentAudioRef s = Some a -> a < length (audios s)) /\
  (playState s = playing \/ playState s = paused ->
   is_Some (currentAudioRef s) /\ currentStanzaIndex s < length stanzas).

End Sequencer.

(** A full timely playback of [n] stanzas: the user clicks play, and every
    audio element in turn loads (canplay), starts playing, is still playing
    when its 500 ms probe fires, and plays to its end.  In such a run the
    audio element and the probe timer of stanza [k] both have handle [k]. *)
Definition timely_stanza (k : nat) : list Event :=
  [AudioCanPlay k; PlayResolved k; Elapse 500; TimerFires k; AudioEnded k].

Definition timely_playback (n : nat) : list Event :=
  ClickPlay :: List.flat_map timely_stanza (seq 0 n).

(** The states of that run: on entering stanza [k] (its element still
    loading, its probe pending), and after the last stanza has ended. *)
Definition entering (k : nat) : Audio :=
  mkAudio (audioPath k) true Loading [] k false None.

Definition played (k : nat) : Audio :=
  mkAudio (audioPath k) true Ready [] k true None.

Definition probing (k : nat) (t : N) : Timer :=
  mkTimer (ProbeTimeout k) 500 (t + 500) true.

Definition probed (k : nat) (t : N) : Timer :=
  mkTimer (ProbeTimeout k) 500 (t + 500) false.

Definition at_stanza (k : nat) (pre : list Audio) (tpre : list Timer) (t : N) : State :=
  mkState playing k false (Some k) None
    (pre ++ [entering k]) (tpre ++ [probing k t]) t [].

Definition after_last (k : nat) (pre : list Audio) (tpre : list Timer) (t : N) : State :=
  mkState ended k false (Some k) None
    (pre ++ [played k]) (tpre ++ [probed k t]) (t + 500) [].

(** The audio elements that are playing at this instant. *)
Definition live_audios (s : State) : list Audio :=
  filter (fun au => is_playing au = true) (audios s).

(** *** The rest of the component: unmount cleanup and render *)

(** The cleanup returned by the [useEffect] of the component, run when it
    unmounts. *)
Definition cleanup (s : State) : State :=
  let s := match currentAudioRef s with
           | Some a => set_currentAudioRef None (on_audio el_pause a s)
           | None => s
           end in
  match fallbackTimerRef s with
  | Some t => clearTimeout t s
  | None => s
  end.

(** The buttons of the two renders and their [onClick]. *)
Inductive Button :=
| BtnPlay | BtnPause | BtnResume | BtnStop | BtnShowAll | BtnBack | BtnReplay.

#[global] Instance Button_eq_dec : EqDecision Button.
Proof. solve_decision. Defined.

Definition onClick (b : Button) : Event :=
  match b with
  | BtnPlay => ClickPlay
  | BtnPause => ClickPause
  | BtnResume => ClickResume
  | BtnStop => ClickStop
  | BtnShowAll => ClickShowAll
  | BtnBack => ClickBack
  | BtnReplay => ClickReplay
  end.

(** [{cond && (<buttons/>)}] *)
Definition when {A} (c : bool) (l : list A) : list A := if c then l else [].

(** The buttons rendered: those of the [if (showAll)] render, or those of
    the main render, in the order of the JSX. *)
Definition buttons (s : State) : list Button :=
  if showAll s then
    when (bool_decide (playState s = playing)) [BtnPause; BtnStop]
    ++ when (bool_decide (playState s = paused)) [BtnResume; BtnStop]
    ++ when (bool_decide (playState s = idle) || bool_decide (playState s = ended)) [BtnBack]
  else
    when (bool_decide (playState s = idle)) [BtnPlay]
    ++ when (bool_decide (playState s = playing)) [BtnPause; BtnStop; BtnShowAll]
    ++ when (bool_decide (playState s = paused)) [BtnResume; BtnStop; BtnShowAll]
    ++ when (bool_decide (playState s = ended)) [BtnReplay; BtnShowAll].

(** The events raised by the host (audio elements, timers, the clock), as
    opposed to the clicks. *)
Definition from_host (e : Event) : bool :=
  match e with
  | AudioCanPlay _ | AudioError _ | AudioEnded _
  | PlayResolved _ | PlayRejected _ | TimerFires _ | Elapse _ => true
  | _ => false
  end.

Section View.

Variable stanzas : list (list string).

(** The lines of the centred stanza of the main render:
    [playState !== 'idle' && playState !== 'ended' &&
     stanzas[currentStanzaIndex]?.map(...)]. *)
Definition currentLines (s : State) : list string :=
  if negb (bool_decide (playState s = idle)) && negb (bool_decide (playState s = ended))
  then default [] (stanzas !! currentStanzaIndex s)
  else [].

(** [Estrofa {currentStanzaIndex + 1} de {stanzas.length}], rendered while
    playing. *)
Definition counter (s : State) : option (nat * nat) :=
  if bool_decide (playState s = playing)
  then Some (currentStanzaIndex s + 1, length stanzas)
  else None.

(** The stanza of the show-all render that carries the highlight colour:
    [index === currentStanzaIndex && playState === 'playing']. *)
Definition highlighted (s : State) (i : nat) : bool :=
  bool_decide (i = currentStanzaIndex s) && bool_decide (playState s = playing).

Definition highlights (s : State) : list nat :=
  filter (fun i => highlighted s i = true) (seq 0 (length stanzas)).

(** What the component schedules and creates: a timer has the delay of its
    kind, a probe names an audio element, a fallback advances from the index
    of one; the two timer handles kept name fallback timers; an audio element
    is the asset of a stanza of the list. *)
Definition timer_ok (l : list Audio) (tm : Timer) : Prop :=
  (delay tm <= due tm)%N /\
  match callback tm with
  | ProbeTimeout a => delay tm = 500%N /\ a < length l
  | FallbackAdvance next =>
      delay tm = 10000%N /\ exists a au, l !! a = Some au /\ next = index au + 1
  | DeferredPlay => delay tm = 100%N
  end.

Definition well_formed (s : State) : Prop :=
  (forall t tm, timers s !! t = Some tm -> timer_ok (audios s) tm) /\
  (forall t, fallbackTimerRef s = Some t ->
     exists next, callback <$> timers s !! t = Some (FallbackAdvance next)) /\
  (forall a au t, audios s !! a = Some au -> fallbackTimer au = Some t ->
     callback <$> timers s !! t = Some (FallbackAdvance (index au + 1))) /\
  (forall a au, audios s !! a = Some au ->
     src au = audioPath (index au) /\ index au < length stanzas).

(** A state in which nothing of an earlier playback can act any more: every
    audio element has played to its end and armed no fallback. *)
Definition quiet (s : State) : Prop :=
  forall a au, audios s !! a = Some au -> finished au /\ fallbackTimer au = None.

(** What holds throughout a timely playback that [handlePlay] started in the
    state [s0]: since then the stanzas 0, ..., k-1 were entered, in order;
    every element but the one of the current stanza has played to its end;
    while playing the index shown is k-1; at [ended], k is the number of
    stanzas and the state is quiet again. *)
Definition playing_from (s0 : State) (k : nat) (s : State) : Prop :=
  length (audios s) = length (audios s0) + k /\
  entered s = entered s0 ++ seq 0 k /\
  k <= length stanzas /\
  (forall a au, audios s !! a = Some au -> fallbackTimer au = None) /\
  (forall a au, audios s !! a = Some au -> S a < length (audios s) -> finished au) /\
  (playState s = playing \/
   (playState s = ended /\ k = length stanzas /\ quiet s)) /\
  (playState s = playing -> S (currentStanzaIndex s) = k).

End View.

End Player.

(** ** The speech utterance driver, [AudioController] *)
Module Speech.

(** A JavaScript string is a sequence of UTF-16 code units; [charIndex],
    [substring], [includes] and [startsWith] count and compare code units. *)
Definition DOMString := list N.

(** A literal whose characters are all ASCII. *)
Definition utf16 (s : string) : DOMString :=
  (fun c => N_of_ascii c) <$> String.list_ascii_of_string s.

(** [s.startsWith(t)] *)
Fixpoint startsWith (s t : DOMString) : bool :=
  match t, s with
  | [], _ => true
  | _ :: _, [] => false
  | c :: t', d :: s' => bool_decide (c = d) && startsWith s' t'
  end.

(** [s.includes(t)] *)
Fixpoint includes (s t : DOMString) : bool :=
  startsWith s t ||
  match s with
  | [] => false
  | _ :: s' => includes s' t
  end.

(** [s.substring(0, n)] for an index [n], as [event.charIndex] is. *)
Definition substring0 (s : DOMString) (n : nat) : DOMString := take n s.

Record Voice := mkVoice {
  voice_name : string;
  voice_lang : DOMString
}.

(** [SpeechSynthesisUtterance]; its four event handlers are the same closures
    for every utterance the driver builds (see [onstart] to [onboundary]). *)
Record Utterance := mkUtterance {
  text : DOMString;
  voice : option Voice;          (* None: the engine's default voice *)
  rate : Q;
  pitch : Q;
  volume : Q;
  lang : string
}.

(** [window.speechSynthesis]: the utterances queued for speaking, the one
    at the head being spoken. *)
Record Synth := mkSynth {
  queue : list Utterance;
  synth_paused : bool;
  voices : list Voice
}.

(** [speechSynthesis.speaking] *)
Definition speaking (e : Synth) : bool := negb (bool_decide (queue e = [])).

(** [speechSynthesis.cancel()] removes every utterance from the queue (the
    paused state of the engine is not changed). *)
Definition cancel (e : Synth) : Synth := mkSynth [] (synth_paused e) (voices e).

(** [speechSynthesis.speak(u)] *)
Definition speak (u : Utterance) (e : Synth) : Synth :=
  mkSynth (queue e ++ [u]) (synth_paused e) (voices e).

Definition pause (e : Synth) : Synth := mkSynth (queue e) true (voices e).
Definition resume (e : Synth) : Synth := mkSynth (queue e) false (voices e).

(** [speechSynthesis.getVoices()] *)
Definition getVoices (e : Synth) : list Voice := voices e.

(** A preloaded sound-effect clip ([new Audio(path)]): its playback position
    [currentTime] (kept in milliseconds), which the driver rewinds and the
    host advances while the clip plays, and the number of times the driver
    started it. *)
Record Clip := mkClip {
  clip_path : string;
  preload : string;
  currentTime : N;
  plays : nat
}.

Record State := mkState {
  audioState : PlayState;
  isSupported : bool;
  utteranceRef : option Utterance;
  soundEffectsRef : gmap string Clip;
  synth : option Synth;          (* None: the host has no speechSynthesis *)
  alerts : list string;          (* alert(...) shown to the user *)
  notified : list PlayState      (* the calls onStateChange?.(state) *)
}.

Definition setAudioState (p : PlayState) (s : State) : State :=
  mkState p (isSupported s) (utteranceRef s) (soundEffectsRef s) (synth s)
    (alerts s) (notified s).

Definition onStateChange (p : PlayState) (s : State) : State :=
  mkState (audioState s) (isSupported s) (utteranceRef s) (soundEffectsRef s)
    (synth s) (alerts s) (notified s ++ [p]).

Definition set_utteranceRef (u : option Utterance) (s : State) : State :=
  mkState (audioState s) (isSupported s) u (soundEffectsRef s) (synth s)
    (alerts s) (notified s).

Definition set_soundEffects (m : gmap string Clip) (s : State) : State :=
  mkState (audioState s) (isSupported s) (utteranceRef s) m (synth s)
    (alerts s) (notified s).

Definition set_synth (e : Synth) (s : State) : State :=
  mkState (audioState s) (isSupported s) (utteranceRef s) (soundEffectsRef s)
    (Some e) (alerts s) (notified s).

Definition alert (msg : string) (s : State) : State :=
  mkState (audioState s) (isSupported s) (utteranceRef s) (soundEffectsRef s)
    (synth s) (alerts s ++ [msg]) (notified s).

(** [const soundFiles = { laugh: ..., chains: ..., steps: ..., dramatic: ... }] *)
Definition soundFiles : list (string * string) :=
  [("laugh", "/sounds/laugh.mp3"); ("chains", "/sounds/chains.mp3");
   ("steps", "/sounds/steps.mp3"); ("dramatic", "/sounds/dramatic.mp3")].

(** The mount effect: [isSupported] records whether the host has
    [speechSynthesis], and every entry of [soundFiles] is preloaded. *)
Definition mount (host : option Synth) : State :=
  mkState idle (bool_decide (is_Some host)) None
    (foldl (fun m '(key, path) => <[key := mkClip path "auto" 0%N 0]> m) ∅ soundFiles)
    host [] [].

(** [audio.currentTime = 0; audio.play()] *)
Definition restart (c : Clip) : Clip :=
  mkClip (clip_path c) (preload c) 0%N (S (plays c)).

(** The host plays a started clip on: its position moves forward. *)
Definition play_on (ms : N) (c : Clip) : Clip :=
  mkClip (clip_path c) (preload c) (currentTime c + ms)%N (plays c).

(** [soundEffectsRef.current[effect]]: the table is a plain object whose own
    properties are the clips the mount effect stored.  [None] stands for
    every other name: a name of no property reads [undefined] and nothing is
    played; a name inherited from [Object.prototype] reads a built-in, on
    which [currentTime] is set and [play] is not a function, so the call
    throws; either way the state of the driver stays as it is.  The driver
    itself calls [playSoundEffect] with the four literal names "dramatic",
    "laugh", "chains" and "steps" only. *)
Definition playSoundEffect (effect : string) (s : State) : State :=
  match soundEffectsRef s !! effect with
  | Some audio => set_soundEffects (<[effect := restart audio]> (soundEffectsRef s)) s
  | None => s
  end.

(** How often the clip of an effect has been started. *)
Definition fired (effect : string) (s : State) : nat :=
  match soundEffectsRef s !! effect with
  | Some c => plays c
  | None => 0
  end.

Section Driver.

(** [interface AudioControllerProps { calavera: string; ... }] *)
Variable calavera : DOMString.

(** The two trigger substrings of the "chains" effect and the one of
    "steps" (its fifth character is U+00F3). *)
Definition trigger_chains : DOMString := utf16 "la Calaca".
Definition trigger_chains_stop : DOMString := utf16 "la Calaca, la mera-mera".
Definition trigger_steps : DOMString :=
  (utf16 "entr" ++ [243%N] ++ utf16 " Aaron")%list.

(** [voices.find((voice) => voice.lang.startsWith('es'))] *)
Definition spanishVoice (vs : list Voice) : option Voice :=
  List.find (fun v => startsWith (voice_lang v) (utf16 "es")) vs.

(** The utterance [handlePlay] builds: the full text, the Spanish voice if
    any, rate 0.9, pitch 1.0, volume 1.0, lang es-MX. *)
Definition newUtterance (vs : list Voice) : Utterance :=
  mkUtterance calavera (spanishVoice vs) (9 # 10) 1 1 "es-MX".

Definition handlePlay (s : State) : State :=
  if negb (isSupported s) then
    alert "Tu navegador no soporta Text-to-Speech. Por favor usa Chrome, Edge o Safari." s
  else
    match synth s with
    | None => s                  (* window.speechSynthesis is undefined: the handler throws *)
    | Some e =>
        let e := cancel e in
        let utterance := newUtterance (getVoices e) in
        let s := set_utteranceRef (Some utterance) s in
        set_synth (speak utterance e) s
    end.

(** [utterance.onstart], [utterance.onend], [utterance.onerror] *)
Definition onstart (s : State) : State :=
  playSoundEffect "dramatic" (onStateChange playing (setAudioState playing s)).

Definition onend (s : State) : State :=
  playSoundEffect "laugh" (onStateChange ended (setAudioState ended s)).

Definition onerror (s : State) : State :=
  onStateChange idle (setAudioState idle s).

(** [utterance.onboundary], called with [event.charIndex] *)
Definition chains_check (charIndex : nat) : bool :=
  let text := substring0 calavera charIndex in
  includes text trigger_chains && negb (includes text trigger_chains_stop).

Definition steps_check (charIndex : nat) : bool :=
  let text := substring0 calavera charIndex in
  includes text trigger_steps.

Definition onboundary (charIndex : nat) (s : State) : State :=
  let s := if chains_check charIndex then playSoundEffect "chains" s else s in
  if steps_check charIndex then playSoundEffect "steps" s else s.

(** The three handlers below start by reading [window.speechSynthesis];
    where the host has none they throw before changing anything. *)
Definition handlePause (s : State) : State :=
  match synth s with
  | None => s
  | Some e =>
      if speaking e && negb (synth_paused e) then
        onStateChange paused (setAudioState paused (set_synth (pause e) s))
      else s
  end.

Definition handleResume (s : State) : State :=
  match synth s with
  | None => s
  | Some e =>
      if synth_paused e then
        onStateChange playing (setAudioState playing (set_synth (resume e) s))
      else s
  end.

Definition handleStop (s : State) : State :=
  match synth s with
  | None => s
  | Some e => onStateChange idle (setAudioState idle (set_synth (cancel e) s))
  end.

(** One narration pass, as the driver sees it: the boundary events of the
    utterance, in the order the engine raises them. *)
Definition narrate (boundaries : list nat) (s : State) : State :=
  foldl (fun s charIndex => onboundary charIndex s) s boundaries.

End Driver.

(** *** The events of the driver *)

(** The four buttons, the four events of an utterance, and the progress of
    a sound-effect clip that has been started. *)
Inductive Event :=
| ClickPlay | ClickPause | ClickResume | ClickStop
| UtteranceStart | UtteranceEnd | UtteranceError
| UtteranceBoundary (charIndex : nat)
| ClipPlaysOn (effect : string) (ms : N).

(** The engine drops the utterance that has ended or failed. *)
Definition drop_spoken (s : State) : State :=
  match synth s with
  | Some e => set_synth (mkSynth (tail (queue e)) (synth_paused e) (voices e)) s
  | None => s
  end.

(** The host advances the position of a clip the driver has started; a clip
    that was never started stays where it is. *)
Definition clip_plays_on (effect : string) (ms : N) (s : State) : State :=
  match soundEffectsRef s !! effect with
  | Some c =>
      if bool_decide (plays c = 0) then s
      else set_soundEffects (<[effect := play_on ms c]> (soundEffectsRef s)) s
  | None => s
  end.

(** The cleanup of the mount effect, run at unmount:
    [if (window.speechSynthesis.speaking) window.speechSynthesis.cancel()].
    Where the host has no [speechSynthesis], reading [.speaking] of
    [undefined] throws a TypeError: [None]. *)
Definition cleanup (s : State) : option State :=
  match synth s with
  | Some e => Some (if speaking e then set_synth (cancel e) s else s)
  | None => None
  end.

(** The state the listener heard last is the state of the driver. *)
Definition in_sync (s : State) : Prop :=
  audioState s = default idle (last (notified s)).

Section Events.

Variable calavera : DOMString.

Definition dispatch (ev : Event) (s : State) : State :=
  match ev with
  | ClickPlay => handlePlay calavera s
  | ClickPause => handlePause s
  | ClickResume => handleResume s
  | ClickStop => handleStop s
  | UtteranceStart => onstart s
  | UtteranceEnd => onend (drop_spoken s)
  | UtteranceError => onerror (drop_spoken s)
  | UtteranceBoundary charIndex => onboundary calavera charIndex s
  | ClipPlaysOn effect ms => clip_plays_on effect ms s
  end.

(** The state after a sequence of events on a freshly mounted driver. *)
Definition after (host : option Synth) (evs : list Event) : State :=
  foldl (fun s ev => dispatch ev s) (mount host) evs.

(** How many events of a run satisfy a test. *)
Definition count_events (P : Event -> bool) (evs : list Event) : nat :=
  length (filter (fun ev => P ev = true) evs).

(** The events on which the driver calls [playSoundEffect(effect)]:
    "dramatic" on start, "laugh" on end, "chains" and "steps" on the
    boundaries that pass their check. *)
Definition plays_on (effect : string) (ev : Event) : bool :=
  match ev with
  | UtteranceStart => bool_decide (effect = "dramatic")
  | UtteranceEnd => bool_decide (effect = "laugh")
  | UtteranceBoundary c =>
      (bool_decide (effect = "chains") && chains_check calavera c)
      || (bool_decide (effect = "steps") && steps_check calavera c)
  | _ => false
  end.

Definition is_click (ev : Event) : bool :=
  match ev with
  | ClickPlay | ClickPause | ClickResume | ClickStop => true
  | _ => false
  end.

Definition is_play (ev : Event) : bool :=
  match ev with ClickPlay => true | _ => false end.

(** What the driver keeps of the engine: at most one utterance is queued,
    the one [handlePlay] built last, which [utteranceRef] holds; the engine
    is there exactly when [isSupported]. *)
Definition driver_inv (host : option Synth) (s : State) : Prop :=
  isSupported s = bool_decide (is_Some host) /\
  match synth s, host with
  | Some e, Some h =>
      voices e = voices h /\
      (queue e = [] \/
       (queue e = [newUtterance calavera (voices e)] /\
        utteranceRef s = Some (newUtterance calavera (voices e))))
  | None, None => utteranceRef s = None
  | _, _ => False
  end.

(** What the driver keeps of its clips: the table holds the entries of
    [soundFiles] and no other, each preloaded; a clip never started is at
    position 0. *)
Definition clips_inv (s : State) : Prop :=
  forall k,
    match soundEffectsRef s !! k with
    | Some c =>
        (k, clip_path c) ∈ soundFiles /\ preload c = "auto" /\
        (plays c = 0 -> currentTime c = 0%N)
    | None => k ∉ (fst <$> soundFiles)
    end.

End Events.

End Speech.

(** * Properties of the stanza audio sequencer *)
Module PlayerFacts.
Import Player.

Section Sequencer.

Variable stanzas : list (list string).

Local Abbreviation N := (length stanzas).
Local Abbreviation playStanza := (playStanza stanzas).
Local Abbreviation handlePlay := (handlePlay stanzas).
Local Abbreviation handleResume := (handleResume stanzas).
Local Abbreviation handleEnded := (handleEnded stanzas).
Local Abbreviation dispatch := (dispatch stanzas).
Local Abbreviation reachable := (reachable stanzas).
Local Abbreviation run := (run stanzas).
Local Abbreviation in_range := (in_range stanzas).
Local Abbreviation holds_audio := (holds_audio stanzas).
Local Abbreviation run_timely := (run_timely stanzas).
Local Abbreviation timely_inv := (timely_inv stanzas).

(** ** How the handlers move the stanza index *)

Lemma playStanza_index i s :
  currentStanzaIndex (playStanza i s) = if decide (N <= i) then currentStanzaIndex s else i.
Proof. unfold Player.playStanza. case_decide; reflexivity. Qed.

Lemma playStanza_state i s :
  playState (playStanza i s) = if decide (N <= i) then ended else playState s.
Proof. unfold Player.playStanza. case_decide; reflexivity. Qed.

Lemma useFallback_index a s :
  currentStanzaIndex (useFallback a s) = currentStanzaIndex s.
Proof. unfold useFallback, with_audio. case_match; reflexivity. Qed.

Lemma handleError_index a s :
  currentStanzaIndex (handleError a s) = currentStanzaIndex s.
Proof.
  unfold handleError, with_audio. case_match; [|reflexivity].
  rewrite useFallback_index. reflexivity.
Qed.

Lemma playStanza_in_range i s : in_range s -> in_range (playStanza i s).
Proof.
  unfold in_range. rewrite playStanza_index. case_decide; lia.
Qed.

Lemma dispatch_in_range e s : in_range s -> in_range (dispatch e s).
Proof.
  intros Hs. destruct e; simpl; try exact Hs.
  - apply playStanza_in_range. unfold in_range. simpl. lia.
  - unfold handlePause. repeat case_match; exact Hs.
  - unfold Player.handleResume. simpl.
    repeat case_match; try apply playStanza_in_range; exact Hs.
  - unfold in_range, handleStop. simpl. lia.
  - unfold in_range, handleReplay, handleStop. simpl. lia.
  - unfold handleCanPlay, with_audio. case_match; exact Hs.
  - unfold in_range. rewrite handleError_index. exact Hs.
  - unfold Player.handleEnded, with_audio. case_match; [|exact Hs].
    apply playStanza_in_range. case_match; exact Hs.
  - unfold canPlayCatch, resumeCatch, with_audio.
    repeat case_match; try exact Hs;
      unfold in_range; rewrite useFallback_index; exact Hs.
  - case_match; [|exact Hs].
    destruct (callback _); simpl.
    + unfold probe, with_audio. repeat case_match; try exact Hs.
      unfold in_range. rewrite handleError_index. exact Hs.
    + apply playStanza_in_range. exact Hs.
    + apply playStanza_in_range. unfold in_range. simpl. lia.
Qed.

(** ** Handlers that leave the sequencing alone *)

Lemma same_view_refl s : same_view s s.
Proof. repeat split. Qed.

Lemma same_view_trans s1 s2 s3 : same_view s1 s2 -> same_view s2 s3 -> same_view s1 s3.
Proof.
  intros (?&?&?&?&?) (?&?&?&?&?). repeat split; congruence.
Qed.

Lemma fmap_index_alter (f : Audio -> Audio) a (l : list Audio) :
  (forall au, index (f au) = index au) -> index <$> alter f a l = index <$> l.
Proof.
  intros Hf. revert a. induction l as [|x l IH]; intros [|a]; simpl; [done..| |].
  - rewrite Hf. reflexivity.
  - f_equal. apply IH.
Qed.

Lemma on_audio_same_view f a s :
  (forall au, index (f au) = index au) -> same_view s (on_audio f a s).
Proof.
  intros Hf. repeat split. unfold entered. simpl. apply fmap_index_alter, Hf.
Qed.

Lemma clearTimeout_same_view t s : same_view s (clearTimeout t s).
Proof. repeat split. Qed.

Lemma warn_same_view m s : same_view s (warn m s).
Proof. repeat split. Qed.

Lemma useFallback_same_view a s : same_view s (useFallback a s).
Proof.
  unfold useFallback, with_audio. case_match; [|apply same_view_refl].
  repeat split. unfold entered. simpl. apply fmap_index_alter. reflexivity.
Qed.

Lemma handleError_same_view a s : same_view s (handleError a s).
Proof.
  unfold handleError, with_audio. case_match; [|apply same_view_refl].
  eapply same_view_trans; [apply warn_same_view|apply useFallback_same_view].
Qed.

Lemma canPlayCatch_same_view a s : same_view s (canPlayCatch a s).
Proof.
  unfold canPlayCatch, with_audio. case_match; [|apply same_view_refl].
  eapply same_view_trans; [apply warn_same_view|apply useFallback_same_view].
Qed.

Lemma handleCanPlay_same_view a s : same_view s (handleCanPlay a s).
Proof.
  unfold handleCanPlay, with_audio. case_match; [|apply same_view_refl].
  eapply same_view_trans; apply on_audio_same_view; reflexivity.
Qed.

Lemma probe_same_view a s : same_view s (probe a s).
Proof.
  unfold probe, with_audio. repeat case_match; try apply same_view_refl.
  apply handleError_same_view.
Qed.

Lemma handlePause_view s :
  playState (handlePause s) = paused /\
  currentStanzaIndex (handlePause s) = currentStanzaIndex s /\
  showAll (handlePause s) = showAll s /\
  currentAudioRef (handlePause s) = currentAudioRef s /\
  entered (handlePause s) = entered s.
Proof.
  unfold handlePause.
  destruct (currentAudioRef s) as [a|] eqn:Ha, (fallbackTimerRef s) as [t|] eqn:Ht;
    simpl; rewrite ?Ht; simpl; repeat split; try assumption;
    unfold entered; simpl; apply fmap_index_alter; reflexivity.
Qed.

Lemma handlePause_audios s :
  audios (handlePause s) =
  match currentAudioRef s with
  | Some a => alter el_pause a (audios s)
  | None => audios s
  end.
Proof.
  unfold handlePause.
  destruct (currentAudioRef s), (fallbackTimerRef s) eqn:Ht; simpl; rewrite ?Ht; reflexivity.
Qed.

Lemma handlePause_timers s :
  timers (handlePause s) =
  match fallbackTimerRef s with
  | Some t => alter cancel t (timers s)
  | None => timers s
  end.
Proof.
  unfold handlePause.
  destruct (currentAudioRef s), (fallbackTimerRef s) eqn:Ht; simpl; rewrite ?Ht; reflexivity.
Qed.

Lemma handleStop_view s :
  playState (handleStop s) = idle /\
  currentStanzaIndex (handleStop s) = 0 /\
  showAll (handleStop s) = showAll s /\
  currentAudioRef (handleStop s) = None /\
  entered (handleStop s) = entered s.
Proof.
  unfold handleStop.
  destruct (currentAudioRef s) as [a|] eqn:Ha, (fallbackTimerRef s) as [t|] eqn:Ht;
    simpl; rewrite ?Ht; simpl; repeat split; try assumption;
    unfold entered; simpl; apply fmap_index_alter; reflexivity.
Qed.

(** ** The sequencer holds an audio element while playing or paused *)

Lemma same_view_holds_audio s s' : same_view s s' -> holds_audio s -> holds_audio s'.
Proof.
  intros (Hp & Hi & _ & Hr & He) [Ha Hb]. unfold Player.holds_audio.
  assert (Hlen : length (audios s') = length (audios s)).
  { unfold entered in He. apply (f_equal length) in He.
    rewrite !length_fmap in He. exact He. }
  rewrite Hp, Hi, Hr, Hlen. split; assumption.
Qed.

Lemma playStanza_holds_audio i s :
  (forall a, currentAudioRef s = Some a -> a < length (audios s)) ->
  holds_audio (playStanza i s).
Proof.
  intros Ha. unfold Player.playStanza. case_decide as Hi.
  - split; [exact Ha|]. simpl. intros [|]; discriminate.
  - split; simpl.
    + intros a [= <-]. rewrite length_app. simpl. lia.
    + intros _. split; [eauto|lia].
Qed.

Lemma same_view_ref_valid s s' :
  same_view s s' ->
  (forall a, currentAudioRef s = Some a -> a < length (audios s)) ->
  forall a, currentAudioRef s' = Some a -> a < length (audios s').
Proof.
  intros (_ & _ & _ & Hr & He) Ha.
  assert (Hlen : length (audios s') = length (audios s)).
  { unfold entered in He. apply (f_equal length) in He.
    rewrite !length_fmap in He. exact He. }
  rewrite Hr, Hlen. exact Ha.
Qed.

Ltac after_on_audio :=
  lazymatch goal with
  | |- same_view ?s (on_audio ?f ?a ?s) =>
      apply on_audio_same_view; reflexivity
  | |- same_view ?s (?h (on_audio ?f ?a ?s)) =>
      apply (same_view_trans s (on_audio f a s));
      [apply on_audio_same_view; reflexivity|]
  | |- same_view ?s (?h ?x (on_audio ?f ?a ?s)) =>
      apply (same_view_trans s (on_audio f a s));
      [apply on_audio_same_view; reflexivity|]
  end.

Lemma dispatch_holds_audio e s :
  enabled s e = true -> holds_audio s -> holds_audio (dispatch e s).
Proof.
  intros He Hs. pose proof Hs as [Ha Hb].
  destruct e; cbn [Player.dispatch Player.enabled] in *.
  - apply playStanza_holds_audio. exact Ha.
  - apply bool_decide_eq_true in He.
    destruct (Hb (or_introl He)) as [Hr Hi].
    destruct (handlePause_view s) as (Hp' & Hi' & _ & Hr' & He').
    assert (Hlen : length (audios (handlePause s)) = length (audios s)).
    { unfold entered in He'. apply (f_equal length) in He'.
      rewrite !length_fmap in He'. exact He'. }
    split.
    + rewrite Hr', Hlen. exact Ha.
    + intros _. rewrite Hr', Hi'. split; assumption.
  - apply bool_decide_eq_true in He.
    destruct (Hb (or_intror He)) as [[a Hr] Hi].
    unfold Player.handleResume. cbn [currentAudioRef setPlayState currentStanzaIndex].
    rewrite Hr. case_match.
    + split; simpl.
      * rewrite length_alter. exact Ha.
      * intros _. split; [rewrite Hr; eauto|exact Hi].
    + apply playStanza_holds_audio. exact Ha.
  - destruct (handleStop_view s) as (Hp' & _ & _ & Hr' & _).
    split; [rewrite Hr'|rewrite Hp']; [discriminate|intros [|]; discriminate].
  - exact Hs.
  - exact Hs.
  - destruct (handleStop_view s) as (Hp' & _ & _ & Hr' & _).
    eapply (same_view_holds_audio (handleStop s)); [repeat split|].
    split; [rewrite Hr'|rewrite Hp']; [discriminate|intros [|]; discriminate].
  - eapply same_view_holds_audio; [|exact Hs].
    after_on_audio.
    apply handleCanPlay_same_view.
  - eapply same_view_holds_audio; [|exact Hs].
    after_on_audio.
    apply handleError_same_view.
  - unfold Player.handleEnded, with_audio. case_match.
    + apply playStanza_holds_audio.
      eapply same_view_ref_valid; [|exact Ha].
      case_match; after_on_audio. apply clearTimeout_same_view.
    + eapply same_view_holds_audio; [|exact Hs]. after_on_audio.
  - eapply same_view_holds_audio; [|exact Hs]. after_on_audio.
  - eapply same_view_holds_audio; [|exact Hs].
    repeat case_match; try apply same_view_refl.
    + after_on_audio.
      apply canPlayCatch_same_view.
    + after_on_audio.
      apply warn_same_view.
  - case_match; [|exact Hs]. destruct (callback _); simpl.
    + eapply same_view_holds_audio; [|exact Hs].
      eapply same_view_trans; [apply clearTimeout_same_view|apply probe_same_view].
    + apply playStanza_holds_audio. exact Ha.
    + apply playStanza_holds_audio. exact Ha.
  - exact Hs.
Qed.
Lemma reachable_holds_audio s : reachable s -> holds_audio s.
Proof.
  induction 1 as [|s e s' _ IH [He ->]].
  - split; simpl; [discriminate|intros [|]; discriminate].
  - apply dispatch_holds_audio; assumption.
Qed.

Lemma handleResume_view s :
  holds_audio s -> playState s = paused ->
  playState (handleResume s) = playing /\
  currentStanzaIndex (handleResume s) = currentStanzaIndex s.
Proof.
  intros [Ha Hb] Hp. destruct (Hb (or_intror Hp)) as [_ Hi].
  unfold Player.handleResume. cbn [currentAudioRef setPlayState currentStanzaIndex].
  assert (Hps : forall s0, playState s0 = playing -> currentStanzaIndex s0 = currentStanzaIndex s ->
     playState (playStanza (currentStanzaIndex s) s0) = playing /\
     currentStanzaIndex (playStanza (currentStanzaIndex s) s0) = currentStanzaIndex s).
  { intros s0 H1 H2. rewrite playStanza_index, playStanza_state.
    case_decide; [exfalso; lia|]. split; [exact H1|reflexivity]. }
  repeat case_match; try (split; reflexivity); apply Hps; reflexivity.
Qed.

(** X21. The two handlers, with no event between them.  In any reachable
    state [playing], pause() pauses the audio element the sequencer holds,
    clears the one timer recorded in [fallbackTimerRef], keeps the handle and
    sets the state to [paused]; a resume() immediately after it sets the
    state to [playing] and resumes that same element, at the same stanza
    index, with no stanza entered anew.  In any reachable state [paused],
    resume() itself sets [playing] and leaves the index as it finds it: it
    resumes the held element if that is paused, and otherwise calls
    [playStanza] at the current index. *)
Theorem pause_then_resume_same_stanza s :
  reachable s -> playState s = playing ->
  let s1 := handlePause s in
  let s2 := handleResume s1 in
  (exists a,
     currentAudioRef s = Some a /\ currentAudioRef s1 = Some a /\
     audio_can el_paused a s1 = true /\
     s2 = on_audio (el_play CatchResume) a (setPlayState playing s1)) /\
  playState s1 = paused /\
  (forall t tm, fallbackTimerRef s = Some t -> timers s1 !! t = Some tm -> pending tm = false) /\
  playState s2 = playing /\
  currentStanzaIndex s2 = currentStanzaIndex s /\
  entered s2 = entered s /\
  (forall s', reachable s' -> playState s' = paused ->
     playState (handleResume s') = playing /\
     currentStanzaIndex (handleResume s') = currentStanzaIndex s' /\
     handleResume s' =
       match currentAudioRef s' with
       | Some a =>
           if audio_can el_paused a s'
           then on_audio (el_play CatchResume) a (setPlayState playing s')
           else playStanza (currentStanzaIndex s') (setPlayState playing s')
       | None => playStanza (currentStanzaIndex s') (setPlayState playing s')
       end).
Proof.
  intros Hs Hp s1 s2.
  pose proof (reachable_holds_audio s Hs) as [Ha Hb].
  destruct (Hb (or_introl Hp)) as [[a Hr] Hi].
  destruct (handlePause_view s) as (Hp1 & Hi1 & _ & Hr1 & He1). fold s1 in Hp1, Hi1, Hr1, He1.
  assert (Hpa : audio_can el_paused a s1 = true).
  { subst s1. unfold audio_can. rewrite handlePause_audios, Hr.
    pose proof (Ha a Hr) as Hlt. apply lookup_lt_is_Some in Hlt as [au Hau].
    rewrite list_lookup_alter_eq, Hau. reflexivity. }
  assert (Hs2 : s2 = on_audio (el_play CatchResume) a (setPlayState playing s1)).
  { subst s2. unfold Player.handleResume.
    cbn [currentAudioRef setPlayState]. rewrite Hr1, Hr.
    change (audio_can el_paused a (setPlayState playing s1)) with (audio_can el_paused a s1).
    rewrite Hpa. reflexivity. }
  split; [exists a; rewrite Hr1; auto|].
  split; [exact Hp1|]. split.
  { intros t tm Ht. subst s1. rewrite handlePause_timers, Ht.
    rewrite list_lookup_alter_eq. intros Htm.
    apply fmap_Some in Htm as (tm0 & _ & ->). reflexivity. }
  rewrite Hs2. split; [reflexivity|]. split; [exact Hi1|]. split.
  { rewrite <- He1. unfold entered. simpl. apply fmap_index_alter. reflexivity. }
  intros s' Hs' Hp'.
  destruct (handleResume_view s' (reachable_holds_audio s' Hs') Hp') as [H1 H2].
  split; [exact H1|]. split; [exact H2|]. reflexivity.
Qed.

Lemma reachable_in_range s : reachable s -> in_range s.
Proof.
  induction 1 as [|s e s' _ IH [_ ->]].
  - unfold Player.in_range. simpl. lia.
  - apply dispatch_in_range, IH.
Qed.

(** C10. In every reachable state of the sequencer over N stanzas the current
    stanza index lies in [0, max(N-1, 0)]; [playStanza i] sets the index to
    [i] only when [i < N], and for [i >= N] it switches to [ended] and leaves
    the index alone; for N = 0, play() ends at once with index 0. *)
Theorem index_never_out_of_range s :
  reachable s ->
  currentStanzaIndex s <= Nat.max (N - 1) 0 /\
  (forall i s0, i < N -> currentStanzaIndex (playStanza i s0) = i) /\
  (forall i s0, N <= i ->
     playState (playStanza i s0) = ended /\
     currentStanzaIndex (playStanza i s0) = currentStanzaIndex s0) /\
  (N = 0 ->
     playState (dispatch ClickPlay init) = ended /\
     currentStanzaIndex (dispatch ClickPlay init) = 0).
Proof.
  intros Hs. split; [exact (reachable_in_range s Hs)|].
  split; [|split].
  - intros i s0 Hi. rewrite playStanza_index. case_decide; [lia|reflexivity].
  - intros i s0 Hi. rewrite playStanza_index, playStanza_state.
    case_decide; [tauto|lia].
  - intros HN. simpl. unfold Player.handlePlay.
    rewrite playStanza_index, playStanza_state.
    case_decide; [split; reflexivity|lia].
Qed.

(** ** Failure of a stanza's audio *)

Lemma useFallback_arms a au s :
  audios s !! a = Some au ->
  timers (useFallback a s) = timers s ++ [fallback_of (index au) (now s)] /\
  fallbackTimerRef (useFallback a s) = Some (length (timers s)) /\
  console (useFallback a s) = console s /\
  now (useFallback a s) = now s.
Proof.
  intros Hau. unfold useFallback, with_audio. rewrite Hau. repeat split.
Qed.

Lemma handleError_arms a au s :
  audios s !! a = Some au ->
  timers (handleError a s) = timers s ++ [fallback_of (index au) (now s)] /\
  fallbackTimerRef (handleError a s) = Some (length (timers s)) /\
  console (handleError a s) = console s ++ [warning LoadError (index au)] /\
  now (handleError a s) = now s.
Proof.
  intros Hau. unfold handleError, with_audio. rewrite Hau.
  match goal with |- context [useFallback a ?s0] =>
    destruct (useFallback_arms a au s0 Hau) as (-> & -> & -> & ->) end.
  repeat split.
Qed.

Lemma canPlayCatch_arms a au s :
  audios s !! a = Some au ->
  timers (canPlayCatch a s) = timers s ++ [fallback_of (index au) (now s)] /\
  fallbackTimerRef (canPlayCatch a s) = Some (length (timers s)) /\
  console (canPlayCatch a s) = console s ++ [warning PlayRefused (index au)] /\
  now (canPlayCatch a s) = now s.
Proof.
  intros Hau. unfold canPlayCatch, with_audio. rewrite Hau.
  match goal with |- context [useFallback a ?s0] =>
    destruct (useFallback_arms a au s0 Hau) as (-> & -> & -> & ->) end.
  repeat split.
Qed.

Lemma fallback_fires t next s :
  callback <$> timers s !! t = Some (FallbackAdvance next) ->
  dispatch (TimerFires t) s = playStanza next (clearTimeout t s).
Proof.
  intros Ht. cbn [Player.dispatch].
  apply fmap_Some in Ht as (tm & -> & Hcb). rewrite <- Hcb. reflexivity.
Qed.

Lemma playStanza_entered i s :
  i < N -> entered (playStanza i s) = entered s ++ [i].
Proof.
  intros Hi. unfold Player.playStanza. case_decide; [exfalso; lia|].
  unfold entered. cbn. rewrite fmap_app. reflexivity.
Qed.

(** What every failure does, given the state [s0] in which [handleError] or
    the catch of [handleCanPlay] runs. *)
Lemma armed_after t0 s s0 s' i :
  length (timers s0) = length (timers s) -> now s0 = now s ->
  timers s' = timers s0 ++ [fallback_of i (now s0)] ->
  now s' = now s0 ->
  t0 = length (timers s) ->
  timers s' !! t0 = Some (fallback_of i (now s)) /\
  length (timers s') = S t0 /\
  enabled (dispatch (Elapse 10000) s') (TimerFires t0) = true.
Proof.
  intros Hlen Hnow Ht Hn' ->.
  assert (Hl : timers s' !! length (timers s) = Some (fallback_of i (now s))).
  { rewrite Ht, <- Hlen, <- Hnow. apply list_lookup_middle. reflexivity. }
  split; [exact Hl|]. split.
  - rewrite Ht, length_app, Hlen. simpl. lia.
  - unfold enabled, Player.dispatch, set_now. cbn [timers now]. rewrite Hl.
    cbn [pending due fallback_of andb]. apply bool_decide_eq_true. lia.
Qed.

(** C7. When the audio of stanza index i fails (its element raises [error],
    its 500 ms probe expires before [canplay], or it loaded and its play is
    rejected), the sequencer logs a warning and arms a timer of 10000 ms for
    [playStanza (i + 1)], touching neither the play state nor the index; that
    timer can fire once 10000 ms have elapsed, and when it fires the
    sequencer enters stanza i + 1 (or ends, if i was the last stanza). *)
Theorem failure_arms_fallback s a au f :
  audios s !! a = Some au -> fails f a s ->
  let s' := dispatch (failure_event f a) s in
  let t := length (timers s) in
  console s' = console s ++ [warning f (index au)] /\
  fallbackTimerRef s' = Some t /\
  same_view s s' /\
  (timers s' !! t = Some (fallback_of (index au) (now s)) /\
   length (timers s') = S t /\
   enabled (dispatch (Elapse 10000) s') (TimerFires t) = true) /\
  (forall s2,
     callback <$> timers s2 !! t = Some (FallbackAdvance (index au + 1)) ->
     let s3 := dispatch (TimerFires t) s2 in
     s3 = playStanza (index au + 1) (clearTimeout t s2) /\
     (index au + 1 < N ->
        currentStanzaIndex s3 = index au + 1 /\
        entered s3 = entered s2 ++ [index au + 1] /\
        playState s3 = playState s2) /\
     (N <= index au + 1 -> playState s3 = ended)).
Proof.
  intros Hau Hf s' t.
  assert (Hfire : forall s2,
     callback <$> timers s2 !! t = Some (FallbackAdvance (index au + 1)) ->
     let s3 := dispatch (TimerFires t) s2 in
     s3 = playStanza (index au + 1) (clearTimeout t s2) /\
     (index au + 1 < N ->
        currentStanzaIndex s3 = index au + 1 /\
        entered s3 = entered s2 ++ [index au + 1] /\
        playState s3 = playState s2) /\
     (N <= index au + 1 -> playState s3 = ended)).
  { intros s2 Ht s3. subst s3. rewrite (fallback_fires _ _ _ Ht).
    split; [reflexivity|]. split.
    - intros Hi. rewrite playStanza_index, playStanza_state, playStanza_entered by exact Hi.
      case_decide; [exfalso; lia|]. repeat split.
    - intros Hi. rewrite playStanza_state. case_decide; [reflexivity|exfalso; lia]. }
  destruct f as [|t0|]; cbn [failure_event fails] in *; subst s'.
  - cbn [Player.dispatch].
    set (s0 := on_audio (set_media Failed) a s).
    assert (Hau0 : audios s0 !! a = Some (set_media Failed au)).
    { subst s0. cbn. rewrite list_lookup_alter_eq, Hau. reflexivity. }
    destruct (handleError_arms a _ s0 Hau0) as (Ht & Hr & Hc & Hn).
    split; [exact Hc|]. split; [exact Hr|]. split.
    { subst s0. after_on_audio. apply handleError_same_view. }
    split; [|exact Hfire].
    eapply (armed_after t s s0); try reflexivity; eassumption.
  - destruct Hf as [Ht0 Hnl]. cbn [Player.dispatch].
    apply fmap_Some in Ht0 as (tm & Htm & Hcb). rewrite Htm, <- Hcb.
    cbn [run_callback].
    set (s0 := clearTimeout t0 s).
    assert (Hau0 : audios s0 !! a = Some au) by exact Hau.
    unfold audio_can in Hnl. rewrite Hau in Hnl.
    unfold probe, with_audio. rewrite Hau0, Hnl.
    destruct (handleError_arms a _ s0 Hau0) as (Ht & Hr & Hc & Hn).
    split; [exact Hc|]. split; [subst s0; rewrite Hr; cbn; rewrite length_alter; reflexivity|].
    split.
    { eapply same_view_trans; [apply clearTimeout_same_view|apply handleError_same_view]. }
    split; [|exact Hfire].
    eapply (armed_after t s s0); try reflexivity; try eassumption.
    subst s0. cbn. apply length_alter.
  - cbn [Player.dispatch]. rewrite Hf.
    set (s0 := on_audio (settle true) a s).
    assert (Hau0 : audios s0 !! a = Some (settle true au)).
    { subst s0. cbn. rewrite list_lookup_alter_eq, Hau. reflexivity. }
    destruct (canPlayCatch_arms a _ s0 Hau0) as (Ht & Hr & Hc & Hn).
    split; [exact Hc|]. split; [exact Hr|]. split.
    { subst s0. after_on_audio. apply canPlayCatch_same_view. }
    split; [|exact Hfire].
    eapply (armed_after t s s0); try reflexivity; eassumption.
Qed.

(** ** The show-all flag *)

Lemma same_view_showAll s s' : same_view s s' -> showAll s' = showAll s.
Proof. intros (_ & _ & H & _). exact H. Qed.

Lemma playStanza_showAll i s : showAll (playStanza i s) = showAll s.
Proof. unfold Player.playStanza. case_decide; reflexivity. Qed.

Lemma handleResume_showAll s : showAll (handleResume s) = showAll s.
Proof.
  unfold Player.handleResume. cbn [currentAudioRef setPlayState currentStanzaIndex].
  repeat case_match; rewrite ?playStanza_showAll; reflexivity.
Qed.

(** C9, as the code has it.  Showing all stanzas (and going back) changes the
    flag and nothing else; pause, resume, stop, replay, every audio event and
    every probe or fallback timer leave the flag as it is; [handlePlay], run
    by the click on play and by the deferred play of replay, sets it to
    false. *)
Theorem show_all_flag e s :
  (forall b,
     let s' := setShowAll b s in
     playState s' = playState s /\ currentStanzaIndex s' = currentStanzaIndex s /\
     currentAudioRef s' = currentAudioRef s /\ fallbackTimerRef s' = fallbackTimerRef s /\
     audios s' = audios s /\ timers s' = timers s) /\
  dispatch ClickShowAll s = setShowAll true s /\
  dispatch ClickBack s = setShowAll false s /\
  showAll (dispatch e s) =
    match e with
    | ClickShowAll => true
    | ClickBack => false
    | _ => if runs_handlePlay e s then false else showAll s
    end.
Proof.
  split; [intros b; repeat split|]. split; [reflexivity|]. split; [reflexivity|].
  destruct e; cbn [Player.dispatch runs_handlePlay]; try reflexivity.
  - unfold Player.handlePlay. rewrite playStanza_showAll. reflexivity.
  - destruct (handlePause_view s) as (_ & _ & H & _). exact H.
  - apply handleResume_showAll.
  - destruct (handleStop_view s) as (_ & _ & H & _). exact H.
  - destruct (handleStop_view s) as (_ & _ & H & _). exact H.
  - apply same_view_showAll. after_on_audio. apply handleCanPlay_same_view.
  - apply same_view_showAll. after_on_audio. apply handleError_same_view.
  - unfold Player.handleEnded, with_audio. case_match; [|reflexivity].
    rewrite playStanza_showAll. case_match; reflexivity.
  - destruct (audios s !! a ≫= _) as [[|]|]; [| |reflexivity].
    + apply same_view_showAll. after_on_audio. apply canPlayCatch_same_view.
    + apply same_view_showAll. after_on_audio. apply warn_same_view.
  - destruct (timers s !! t) as [tm|]; [|reflexivity].
    cbn [fmap option_fmap option_map]. destruct (callback tm); cbn [run_callback].
    + apply same_view_showAll.
      eapply same_view_trans; [apply clearTimeout_same_view|apply probe_same_view].
    + rewrite playStanza_showAll. reflexivity.
    + unfold Player.handlePlay. rewrite playStanza_showAll. reflexivity.
Qed.

(** ** Every timely playback enters the stanzas in order *)

Lemma entered_index s a au :
  entered s = seq 0 (length (audios s)) -> audios s !! a = Some au -> index au = a.
Proof.
  intros He Hau.
  assert (H : entered s !! a = Some (index au)).
  { unfold entered. rewrite list_lookup_fmap, Hau. reflexivity. }
  rewrite He in H. apply lookup_seq in H as [H _]. simpl in H. congruence.
Qed.

Lemma unfinished_is_current s a au :
  timely_inv s -> audios s !! a = Some au -> ~ finished au ->
  playState s = playing /\ S a = length (audios s) /\ index au = a.
Proof.
  intros (He & _ & _ & _ & Hfin & Hst & _) Hau Hnf.
  split; [|split].
  - destruct Hst as [Hp|(_ & _ & Hall)]; [exact Hp|].
    destruct (Hnf (Hall a au Hau)).
  - apply lookup_lt_Some in Hau as Hlt.
    destruct (decide (S a < length (audios s))) as [Hs|Hs]; [|lia].
    destruct (Hnf (Hfin a au Hau Hs)).
  - exact (entered_index s a au He Hau).
Qed.

(** The element of the current stanza changes; its index and fallback timer
    do not. *)
Lemma timely_inv_current f a s :
  timely_inv s -> playState s = playing -> S a = length (audios s) ->
  (forall au, index (f au) = index au /\ fallbackTimer (f au) = fallbackTimer au) ->
  timely_inv (on_audio f a s).
Proof.
  intros (He & Hlen & Htm & Hft & Hfin & Hst & Hix) Hp Ha Hf.
  unfold Player.timely_inv, entered.
  cbn [on_audio set_audios audios timers playState currentStanzaIndex].
  rewrite length_alter, fmap_index_alter by (intros; apply Hf).
  split; [exact He|]. split; [exact Hlen|]. split; [exact Htm|].
  split; [|split; [|split; [left; exact Hp|exact Hix]]].
  - intros a' au'. rewrite list_lookup_alter. case_decide as Hd.
    + intros H. apply fmap_Some in H as (au0 & H0 & ->).
      rewrite (proj2 (Hf au0)). exact (Hft _ _ H0).
    + apply Hft.
  - intros a' au' H Hlt. rewrite list_lookup_alter_ne in H by lia.
    exact (Hfin a' au' H Hlt).
Qed.

Lemma handleCanPlay_present a au s :
  audios s !! a = Some au ->
  handleCanPlay a s = on_audio (el_play CatchCanPlay) a (on_audio (set_audioLoaded true) a s).
Proof. intros H. unfold handleCanPlay, with_audio. rewrite H. reflexivity. Qed.

Lemma timely_inv_playStanza a au s :
  timely_inv s -> playState s = playing -> S a = length (audios s) ->
  audios s !! a = Some au -> finished au ->
  timely_inv (playStanza (S a) s).
Proof.
  intros (He & Hlen & Htm & Hft & Hfin & Hst & Hix) Hp Ha Hau Hfa.
  assert (Hall : forall a' au', audios s !! a' = Some au' -> finished au').
  { intros a' au' H. apply lookup_lt_Some in H as Hlt.
    destruct (decide (a' = a)) as [->|Hne].
    - rewrite Hau in H. injection H as <-. exact Hfa.
    - apply (Hfin a' au' H). lia. }
  unfold Player.playStanza. case_decide as HN.
  - unfold Player.timely_inv. cbn [setPlayState audios timers playState entered].
    split; [exact He|]. split; [exact Hlen|]. split; [exact Htm|].
    split; [exact Hft|]. split; [exact Hfin|]. split; [|discriminate].
    right. split; [reflexivity|]. split; [lia|exact Hall].
  - unfold Player.timely_inv, entered. cbn.
    rewrite fmap_app, length_app. cbn. rewrite Nat.add_1_r.
    split; [|split; [|split; [|split; [|split; [|split]]]]].
    + rewrite seq_S. unfold entered in He. rewrite He, Ha. reflexivity.
    + lia.
    + intros t tm H. apply lookup_app_Some in H as [H|[_ H]]; [exact (Htm t tm H)|].
      apply list_lookup_singleton_Some in H as [_ <-]. eauto.
    + intros a' au' H. apply lookup_app_Some in H as [H|[_ H]]; [exact (Hft a' au' H)|].
      apply list_lookup_singleton_Some in H as [_ <-]. reflexivity.
    + intros a' au' H Hlt. apply lookup_app_Some in H as [H|[Hge H]]; [exact (Hall a' au' H)|].
      apply list_lookup_singleton_Some in H as [H _]. lia.
    + left. exact Hp.
    + intros _. lia.
Qed.

Lemma timely_inv_step e s :
  timely_inv s -> enabled s e = true -> timely s e = true ->
  timely_inv (dispatch e s).
Proof.
  intros Hs He Hn. destruct e; try discriminate Hn;
    cbn [Player.dispatch enabled timely] in *.
  - (* canplay *)
    unfold audio_can in He. destruct (audios s !! a) as [au|] eqn:Hau; [|discriminate].
    apply bool_decide_eq_true in He.
    destruct (unfinished_is_current s a au Hs Hau) as (Hp & Ha & _).
    { intros (_ & H & _). congruence. }
    rewrite (handleCanPlay_present a (set_media Ready au)).
    2:{ cbn. rewrite list_lookup_alter_eq, Hau. reflexivity. }
    repeat (apply timely_inv_current; [| try exact Hp | try (cbn; rewrite ?length_alter; exact Ha) | intros; split; reflexivity]).
    exact Hs.
  - (* ended *)
    unfold audio_can in He. destruct (audios s !! a) as [au|] eqn:Hau; [|discriminate].
    unfold is_playing in He. rewrite !andb_true_iff, negb_true_iff, !bool_decide_eq_true in He.
    destruct He as [[Hnp Hm] Hpr].
    destruct (unfinished_is_current s a au Hs Hau) as (Hp & Ha & Hi).
    { intros (H & _). congruence. }
    assert (Hs0 : timely_inv (on_audio finish a s)).
    { apply timely_inv_current; [exact Hs|exact Hp|exact Ha|intros; split; reflexivity]. }
    assert (Hau0 : audios (on_audio finish a s) !! a = Some (finish au)).
    { cbn. rewrite list_lookup_alter_eq, Hau. reflexivity. }
    unfold Player.handleEnded, with_audio. rewrite Hau0.
    destruct Hs as (_ & _ & _ & Hft & _). cbn [finish el_pause fallbackTimer index].
    rewrite (Hft a au Hau), Hi, Nat.add_1_r.
    apply (timely_inv_playStanza a (finish au)); try assumption.
    + cbn. rewrite length_alter. exact Ha.
    + repeat split; assumption.
  - (* play resolved *)
    unfold audio_can in He. destruct (audios s !! a) as [au|] eqn:Hau; [|discriminate].
    rewrite !andb_true_iff, !negb_true_iff, bool_decide_eq_false in He.
    destruct He as [_ Hpr].
    destruct (unfinished_is_current s a au Hs Hau) as (Hp & Ha & _).
    { intros (_ & _ & H). contradiction. }
    apply timely_inv_current; [exact Hs|exact Hp|exact Ha|intros; split; reflexivity].
  - (* a probe, after canplay *)
    destruct (timers s !! t) as [tm|] eqn:Htm; [|discriminate].
    cbn in Hn. destruct (callback tm) as [a| |] eqn:Hcb; try discriminate.
    cbn [run_callback]. unfold probe, with_audio.
    cbn [clearTimeout set_timers audios]. unfold audio_can in Hn.
    destruct (audios s !! a) as [au|]; [|discriminate]. rewrite Hn.
    destruct Hs as (H1 & H2 & H3 & H4 & H5 & H6 & H7).
    split; [exact H1|]. split; [exact H2|].
    split; [|split; [exact H4|split; [exact H5|split; [exact H6|exact H7]]]].
    intros t' tm'. cbn [clearTimeout set_timers timers].
    rewrite list_lookup_alter. destruct (decide (t = t')).
    + intros Hl. apply fmap_Some in Hl as (tm0 & H0 & ->). exact (H3 _ _ H0).
    + apply H3.
  - (* time passes *)
    exact Hs.
Qed.

(** ** A full timely playback *)

Lemma snoc_lookup {A} (l : list A) x k : length l = k -> (l ++ [x]) !! k = Some x.
Proof. intros <-. apply list_lookup_middle. reflexivity. Qed.

Lemma snoc_alter {A} (f : A -> A) (l : list A) x k :
  length l = k -> alter f k (l ++ [x]) = l ++ [f x].
Proof.
  intros <-. rewrite alter_app_r_alt by lia. rewrite Nat.sub_diag. reflexivity.
Qed.

Lemma run_timely_cons e es s :
  run_timely (e :: es) s =
  if enabled s e && timely s e then run_timely es (dispatch e s) else None.
Proof. reflexivity. Qed.

Lemma run_timely_app es1 es2 s :
  run_timely (es1 ++ es2) s = run_timely es1 s ≫= run_timely es2.
Proof.
  revert s. induction es1 as [|e es1 IH]; intros s; [reflexivity|].
  cbn [app]. rewrite !run_timely_cons.
  destruct (enabled s e && timely s e); [apply IH|reflexivity].
Qed.

Lemma run_timely_run es s s' : run_timely es s = Some s' -> run es s = Some s'.
Proof.
  revert s. induction es as [|e es IH]; intros s; [exact id|].
  rewrite run_timely_cons. cbn [Player.run].
  destruct (enabled s e); [|discriminate].
  destruct (timely s e); [apply IH|discriminate].
Qed.

Lemma run_timely_inv es s s' :
  timely_inv s -> run_timely es s = Some s' -> timely_inv s'.
Proof.
  revert s. induction es as [|e es IH]; intros s Hs; [intros [= <-]; exact Hs|].
  rewrite run_timely_cons.
  destruct (enabled s e) eqn:He; [|discriminate].
  destruct (timely s e) eqn:Hn; [|discriminate].
  apply IH, timely_inv_step; assumption.
Qed.

Lemma timely_inv_play : timely_inv (dispatch ClickPlay init).
Proof.
  cbn [Player.dispatch]. unfold Player.handlePlay, Player.playStanza.
  case_decide as HN.
  - unfold Player.timely_inv. cbn.
    split; [reflexivity|]. split; [lia|].
    split; [intros t tm H; discriminate H|].
    split; [intros a au H; discriminate H|].
    split; [intros a au H; discriminate H|].
    split; [|discriminate].
    right. split; [reflexivity|]. split; [lia|]. intros a au H. discriminate H.
  - unfold Player.timely_inv. cbn.
    split; [reflexivity|]. split; [lia|].
    split; [intros [|t] tm [= <-]; eauto|].
    split; [intros [|a] au [= <-]; reflexivity|].
    split; [intros a au _ H; lia|].
    split; [left; reflexivity|reflexivity].
Qed.

(** The schedule [timely_playback], stanza by stanza. *)
Ltac one_step Hpre Htpre :=
  rewrite run_timely_cons;
  repeat (progress (
    unfold enabled, timely, Player.dispatch, audio_can, handleCanPlay,
      Player.handleEnded, probe, handleError, with_audio, on_audio,
      set_audios, set_timers, set_now, clearTimeout, run_callback,
      is_playing, settle, finish, el_pause, el_play, set_media,
      set_audioLoaded, entering, probing, cancel;
    cbn -[Player.run_timely N.add decide Player.playStanza];
    rewrite ?(snoc_lookup _ _ _ Hpre), ?(snoc_lookup _ _ _ Htpre),
          ?(snoc_alter _ _ _ _ Hpre), ?(snoc_alter _ _ _ _ Htpre))).

Lemma timely_stanza_run k pre tpre t :
  length pre = k -> length tpre = k ->
  run_timely (timely_stanza k) (at_stanza k pre tpre t) =
  Some (if decide (N <= S k) then after_last k pre tpre t
        else at_stanza (S k) (pre ++ [played k]) (tpre ++ [probed k t]) (t + 500)).
Proof.
  intros Hpre Htpre. unfold timely_stanza, at_stanza.
  do 5 one_step Hpre Htpre.
  rewrite !bool_decide_eq_true_2 by (reflexivity || lia).
  cbn [andb Player.run_timely]. rewrite Nat.add_1_r.
  unfold Player.playStanza. case_decide; [reflexivity|].
  unfold newAudio, setTimeout, at_stanza.
  cbn [audios timers set_audios set_timers setCurrentStanzaIndex
       set_currentAudioRef playState currentStanzaIndex showAll
       currentAudioRef fallbackTimerRef now console].
  rewrite !length_app, Hpre, Nat.add_1_r. reflexivity.
Qed.

Lemma timely_rest m : forall k pre tpre t,
  k + S m = N -> length pre = k -> length tpre = k ->
  exists s,
    run_timely (List.flat_map timely_stanza (seq k (S m))) (at_stanza k pre tpre t) = Some s
    /\ playState s = ended.
Proof.
  induction m as [|m IH]; intros k pre tpre t HN Hpre Htpre.
  - cbn [seq List.flat_map]. rewrite app_nil_r, timely_stanza_run by assumption.
    rewrite decide_True by lia. eexists. split; reflexivity.
  - change (seq k (S (S m))) with (k :: seq (S k) (S m)).
    cbn [List.flat_map]. rewrite run_timely_app, timely_stanza_run by assumption.
    rewrite decide_False by lia. cbn [mbind option_bind].
    apply IH.
    + lia.
    + rewrite length_app, Hpre. simpl. lia.
    + rewrite length_app, Htpre. simpl. lia.
Qed.

Lemma timely_playback_completes :
  exists s,
    run_timely (List.flat_map timely_stanza (seq 0 N)) (dispatch ClickPlay init) = Some s /\
    playState s = ended.
Proof.
  destruct (decide (N = 0)) as [H0|H0].
  - rewrite H0. cbn [seq List.flat_map Player.run_timely Player.dispatch].
    unfold Player.handlePlay, Player.playStanza.
    case_decide; [|exfalso; lia]. eexists. split; reflexivity.
  - destruct (timely_rest (N - 1) 0 [] [] 0%N) as (s & Hrun & Hend);
      try reflexivity; try lia.
    exists s. split; [|exact Hend].
    rewrite <- Hrun. f_equal.
    + do 2 f_equal. lia.
    + cbn [Player.dispatch]. unfold Player.handlePlay, Player.playStanza.
      case_decide; [exfalso; lia|]. reflexivity.
Qed.

(** X22. For every list of N >= 0 stanzas: at every point of a timely
    playback from the fresh page (the user clicks play; every audio element
    raises [canplay] before its 500 ms probe fires and plays to its end; no
    other click, no [error], no rejected play) the stanzas entered so far are
    0, 1, 2, ... in this order, each once, the index shown while playing is
    the one entered last, and when the state is [ended] they are exactly
    0..N-1; the timely playback that takes the stanzas one after the other
    is a run the page can make and it reaches [ended].  For N = 0 the click
    on play alone reaches [ended]. *)
Theorem timely_playback_visits_all es s :
  run_timely es (dispatch ClickPlay init) = Some s ->
  (entered s = seq 0 (length (entered s)) /\ length (entered s) <= N /\
   (playState s = playing \/ playState s = ended) /\
   (playState s = playing -> S (currentStanzaIndex s) = length (entered s)) /\
   (playState s = ended -> entered s = seq 0 N)) /\
  (exists s',
     run_timely (List.flat_map timely_stanza (seq 0 N)) (dispatch ClickPlay init) = Some s' /\
     run (timely_playback N) init = Some s' /\
     playState s' = ended /\ entered s' = seq 0 N) /\
  (N = 0 -> playState (dispatch ClickPlay init) = ended).
Proof.
  assert (Hinv : forall es s, run_timely es (dispatch ClickPlay init) = Some s ->
     entered s = seq 0 (length (entered s)) /\ length (entered s) <= N /\
     (playState s = playing \/ playState s = ended) /\
     (playState s = playing -> S (currentStanzaIndex s) = length (entered s)) /\
     (playState s = ended -> entered s = seq 0 N)).
  { clear es s. intros es s Hrun.
    destruct (run_timely_inv es _ s timely_inv_play Hrun)
      as (He & Hlen & _ & _ & _ & Hst & Hix).
    assert (Hl : length (entered s) = length (audios s))
      by (unfold entered; apply length_fmap).
    rewrite Hl. split; [exact He|]. split; [exact Hlen|]. split; [|split].
    - destruct Hst as [?|[? _]]; auto.
    - exact Hix.
    - intros Hend. destruct Hst as [Hp|(_ & HN & _)]; [congruence|].
      rewrite He, HN. reflexivity. }
  intros Hrun. split; [exact (Hinv es s Hrun)|]. split.
  - destruct timely_playback_completes as (s' & Hrun' & Hend).
    exists s'. split; [exact Hrun'|]. split.
    + unfold timely_playback. cbn [Player.run].
      change (enabled init ClickPlay) with true. cbn match.
      apply run_timely_run, Hrun'.
    + split; [exact Hend|]. apply (Hinv _ _ Hrun'), Hend.
  - intros H0. cbn [Player.dispatch]. unfold Player.handlePlay.
    rewrite playStanza_state. case_decide; [reflexivity|exfalso; lia].
Qed.

End Sequencer.

Lemma index_never_out_of_range_witness :
  let stanzas := [["a"]; ["b"]] in
  let s := dispatch stanzas (AudioEnded 0)
             (dispatch stanzas (PlayResolved 0)
                (dispatch stanzas (AudioCanPlay 0)
                   (dispatch stanzas ClickPlay init))) in
  reachable stanzas s /\ currentStanzaIndex s = 1 /\
  currentStanzaIndex s <= Nat.max (length stanzas - 1) 0.
Proof.
  intros stanzas s.
  assert (Hs : reachable stanzas s).
  { repeat (eapply reachable_step; [|split; [|reflexivity]; reflexivity]).
    apply reachable_init. }
  split; [exact Hs|]. split; [reflexivity|].
  exact (proj1 (index_never_out_of_range stanzas s Hs)).
Defined.

(** ** Runs on concrete stanza lists *)

Lemma timely_playback_visits_all_witness :
  let stanzas := [["a"]; ["b"]] in
  let es := [AudioCanPlay 0; PlayResolved 0; AudioEnded 0; AudioCanPlay 1] in
  let s := dispatch stanzas (AudioCanPlay 1)
             (dispatch stanzas (AudioEnded 0)
                (dispatch stanzas (PlayResolved 0)
                   (dispatch stanzas (AudioCanPlay 0)
                      (dispatch stanzas ClickPlay init)))) in
  run_timely stanzas es (dispatch stanzas ClickPlay init) = Some s /\
  entered s = seq 0 (length (entered s)) /\
  length (entered s) <= length stanzas.
Proof.
  intros stanzas es s.
  assert (Hrun : run_timely stanzas es (dispatch stanzas ClickPlay init) = Some s)
    by (vm_compute; reflexivity).
  split; [exact Hrun|].
  destruct (timely_playback_visits_all stanzas es s Hrun) as ((He & Hl & _) & _).
  split; assumption.
Defined.

Lemma pause_then_resume_same_stanza_witness :
  let stanzas := [["a"]; ["b"]] in
  let s := dispatch stanzas (PlayResolved 0)
             (dispatch stanzas (AudioCanPlay 0) (dispatch stanzas ClickPlay init)) in
  reachable stanzas s /\ playState s = playing /\
  playState (handlePause s) = paused /\
  playState (handleResume stanzas (handlePause s)) = playing /\
  currentStanzaIndex (handleResume stanzas (handlePause s)) = currentStanzaIndex s.
Proof.
  intros stanzas s.
  assert (Hs : reachable stanzas s).
  { repeat (eapply reachable_step; [|split; [|reflexivity]; reflexivity]).
    apply reachable_init. }
  assert (Hp : playState s = playing) by reflexivity.
  destruct (pause_then_resume_same_stanza stanzas s Hs Hp)
    as (_ & H1 & _ & H2 & H3 & _).
  repeat split; assumption.
Defined.

Lemma failure_arms_fallback_witness :
  let stanzas := [["a"]; ["b"]] in
  let s := dispatch stanzas ClickPlay init in
  audios s !! 0 = Some (entering 0) /\ fails LoadError 0 s /\
  console (dispatch stanzas (AudioError 0) s) =
    ["No se pudo cargar audio para estrofa 1, usando fallback de 10 segundos"] /\
  fallbackTimerRef (dispatch stanzas (AudioError 0) s) = Some 1.
Proof.
  intros stanzas s.
  assert (Hau : audios s !! 0 = Some (entering 0)) by reflexivity.
  assert (Hf : fails LoadError 0 s) by exact I.
  destruct (failure_arms_fallback stanzas s 0 (entering 0) LoadError Hau Hf)
    as (H1 & H2 & _).
  repeat split; assumption.
Defined.

(** C1. [handleStop] always sets the state to [idle] and the index to 0, but
    callbacks scheduled before it still advance the sequence afterwards.
    With two stanzas, play and then stop: (a) the 500 ms probe of the released
    element, which [handleStop] does not cancel, fires, arms a fallback, and
    at 10500 ms the stopped sequencer enters stanza 1 (with one stanza it
    leaves [idle] for [ended]); (b) the listeners of the released element
    stay attached, so when it loads it is played, and at its end stanza 1 is
    entered; (c) of two fallback timers armed for one element, stop clears
    only the one held in [fallbackTimerRef], and the other fires. *)
Theorem stop_leaves_callbacks_armed :
  (forall s, playState (handleStop s) = idle /\ currentStanzaIndex (handleStop s) = 0) /\
  (exists s0 s1,
     run [["a"]; ["b"]] [ClickPlay; ClickStop] init = Some s0 /\
     playState s0 = idle /\ currentStanzaIndex s0 = 0 /\ entered s0 = [0] /\
     run [["a"]; ["b"]] [Elapse 500; TimerFires 0; Elapse 10000; TimerFires 1] s0 = Some s1 /\
     playState s1 = idle /\ currentStanzaIndex s1 = 1 /\ entered s1 = [0; 1]) /\
  (exists s0 s1,
     run [["a"]] [ClickPlay; ClickStop] init = Some s0 /\ playState s0 = idle /\
     run [["a"]] [Elapse 500; TimerFires 0; Elapse 10000; TimerFires 1] s0 = Some s1 /\
     playState s1 = ended) /\
  (exists s0 s1,
     run [["a"]; ["b"]] [ClickPlay; ClickStop] init = Some s0 /\
     playState s0 = idle /\ currentStanzaIndex s0 = 0 /\
     run [["a"]; ["b"]] [AudioCanPlay 0; PlayResolved 0; AudioEnded 0] s0 = Some s1 /\
     playState s1 = idle /\ currentStanzaIndex s1 = 1 /\ entered s1 = [0; 1]) /\
  (exists s0 s1,
     run [["a"]; ["b"]]
       [ClickPlay; Elapse 50; AudioError 0; Elapse 450; TimerFires 0; ClickStop] init = Some s0 /\
     playState s0 = idle /\ currentStanzaIndex s0 = 0 /\
     run [["a"]; ["b"]] [Elapse 9550; TimerFires 1] s0 = Some s1 /\
     playState s1 = idle /\ currentStanzaIndex s1 = 1 /\ entered s1 = [0; 1]).
Proof.
  split.
  { intros s. destruct (handleStop_view s) as (H1 & H2 & _). split; assumption. }
  repeat split; do 2 eexists; vm_compute; repeat split.
Qed.

(** C2. A missing asset arms the fallback twice: once on the [error] event
    and once more when the 500 ms probe finds [audioLoaded] still false.
    Both timers fire, 450 ms apart, and each calls [playStanza 1]: the
    advance from stanza 0 to stanza 1 happens twice. *)
Theorem missing_asset_advances_twice :
  exists s,
    run [["a"]; ["b"]]
      [ClickPlay; Elapse 50; AudioError 0; Elapse 450; TimerFires 0;
       Elapse 9550; TimerFires 1; Elapse 450; TimerFires 2] init = Some s /\
    entered s = [0; 1; 1] /\
    callback <$> timers s !! 1 = Some (FallbackAdvance 1) /\
    callback <$> timers s !! 2 = Some (FallbackAdvance 1).
Proof. eexists. vm_compute. repeat split. Qed.

(** C3. In the run of a missing asset two fallback timers are pending at the
    same instant, and after both have fired two audio elements of stanza 1
    are live; [playStanza] released neither the timer nor the element that
    the sequencer held. *)
Theorem two_timers_and_two_handles :
  (exists s,
     run [["a"]; ["b"]]
       [ClickPlay; Elapse 50; AudioError 0; Elapse 450; TimerFires 0] init = Some s /\
     length (pending_fallbacks s) = 2) /\
  (exists s,
     run [["a"]; ["b"]]
       [ClickPlay; Elapse 50; AudioError 0; Elapse 450; TimerFires 0;
        Elapse 9550; TimerFires 1; Elapse 50; AudioCanPlay 1; PlayResolved 1;
        Elapse 400; TimerFires 2; Elapse 50; AudioCanPlay 2; PlayResolved 2] init = Some s /\
     length (live_audios s) = 2 /\ index <$> live_audios s = [1; 1]).
Proof. split; eexists; vm_compute; repeat split. Qed.

(** C4. A natural playback in which every asset loads and plays to its end,
    but the first one loads late: at 500 ms the probe finds [audioLoaded]
    false and arms the 10 s fallback, at 600 ms the element raises [canplay]
    and is played ([handleCanPlay] does not cancel the fallback), at 10500 ms
    the fallback fires while the element is still playing and enters stanza
    1, and at 12000 ms the element ends and [handleEnded] enters stanza 1
    again.  Every event of the run is natural, every element has played to
    its end and the state is [ended], yet stanza 1 was entered twice (and its
    two elements were playing together). *)
Theorem late_asset_enters_stanza_twice :
  let stanzas := [["a"]; ["b"]] in
  let late := [Elapse 500; TimerFires 0; Elapse 100; AudioCanPlay 0; PlayResolved 0] in
  let fallback := [Elapse 9900; TimerFires 1; Elapse 100; AudioCanPlay 1; PlayResolved 1;
                   Elapse 400; TimerFires 2] in
  let ends := [Elapse 1000; AudioEnded 0; Elapse 100; AudioCanPlay 2; PlayResolved 2] in
  let rest := [Elapse 400; TimerFires 3; Elapse 9000; AudioEnded 1; Elapse 1000; AudioEnded 2] in
  forallb natural (late ++ fallback ++ ends ++ rest) = true /\
  (exists s,
     run stanzas (ClickPlay :: late) init = Some s /\
     callback <$> timers s !! 1 = Some (FallbackAdvance 1) /\
     enabled s (TimerFires 1) = false /\ length (pending_fallbacks s) = 1 /\
     index <$> live_audios s = [0]) /\
  (exists s,
     run stanzas (ClickPlay :: late ++ fallback) init = Some s /\
     entered s = [0; 1] /\ index <$> live_audios s = [0; 1]) /\
  (exists s,
     run stanzas (ClickPlay :: late ++ fallback ++ ends) init = Some s /\
     entered s = [0; 1; 1] /\ index <$> live_audios s = [1; 1]) /\
  (exists s,
     run stanzas (ClickPlay :: late ++ fallback ++ ends ++ rest) init = Some s /\
     playState s = ended /\ Forall finished (audios s) /\
     Forall (fun au => media au = Ready /\ audioLoaded au = true) (audios s) /\
     entered s = [0; 1; 1] /\ entered s <> seq 0 (length stanzas)).
Proof.
  split; [reflexivity|].
  split; [eexists; vm_compute; repeat split|].
  split; [eexists; vm_compute; repeat split|].
  split; [eexists; vm_compute; repeat split|].
  eexists. split; [vm_compute; reflexivity|].
  split; [reflexivity|].
  split; [repeat constructor|].
  split; [repeat constructor|].
  split; [reflexivity|discriminate].
Qed.

(** C8. Pause does not hold the sequence at its stanza.  (a) For a missing
    asset the [error] event and the 500 ms probe each armed a fallback;
    pause clears the one in [fallbackTimerRef], and the other fires while
    the state is [paused]: the index goes from 0 to 1, and resume continues
    with stanza 1.  (b) Pause before the element has loaded leaves its
    [canplay] listener attached: the element starts playing while the state
    is [paused], so resume finds it not paused and calls [playStanza 0],
    which enters stanza 0 a second time, and both elements play.
    (c) Pause before 500 ms does not cancel the probe, which arms a
    fallback that fires during the pause and enters stanza 1. *)
Theorem pause_does_not_hold_the_stanza :
  let stanzas := [["a"]; ["b"]] in
  (exists s0 s1 s2,
     run stanzas [ClickPlay; Elapse 50; AudioError 0; Elapse 450; TimerFires 0] init = Some s0 /\
     playState s0 = playing /\ currentStanzaIndex s0 = 0 /\
     enabled s0 ClickPause = true /\ s1 = dispatch stanzas ClickPause s0 /\
     playState s1 = paused /\ length (pending_fallbacks s1) = 1 /\
     run stanzas [Elapse 9550; TimerFires 1] s1 = Some s2 /\
     playState s2 = paused /\ currentStanzaIndex s2 = 1 /\ entered s2 = [0; 1] /\
     enabled s2 ClickResume = true /\
     playState (dispatch stanzas ClickResume s2) = playing /\
     currentStanzaIndex (dispatch stanzas ClickResume s2) = 1) /\
  (exists s0 s1 s2 s3,
     s0 = dispatch stanzas ClickPlay init /\
     playState s0 = playing /\ currentStanzaIndex s0 = 0 /\
     run stanzas [ClickPause] s0 = Some s1 /\ playState s1 = paused /\
     run stanzas [AudioCanPlay 0; PlayResolved 0; ClickResume] s1 = Some s2 /\
     playState s2 = playing /\ currentStanzaIndex s2 = 0 /\
     entered s2 = [0; 0] /\
     run stanzas [AudioCanPlay 1; PlayResolved 1] s2 = Some s3 /\
     index <$> live_audios s3 = [0; 0]) /\
  (exists s0 s1,
     run stanzas [ClickPlay; ClickPause] init = Some s0 /\
     playState s0 = paused /\ currentStanzaIndex s0 = 0 /\
     run stanzas [Elapse 500; TimerFires 0; Elapse 10000; TimerFires 1] s0 = Some s1 /\
     playState s1 = paused /\ currentStanzaIndex s1 = 1 /\ entered s1 = [0; 1]).
Proof.
  split; [|split].
  - do 3 eexists. vm_compute. repeat split.
  - do 4 eexists. vm_compute. repeat split.
  - do 2 eexists. vm_compute. repeat split.
Qed.

(** C9, as stated, fails: a run at the end of which the deferred play of
    replay finds the flag set and clears it. *)
Lemma deferred_play_clears_show_all :
  exists s,
    run [["a"]]
      [ClickPlay; ClickStop; AudioCanPlay 0; PlayResolved 0; ClickPlay;
       AudioCanPlay 1; PlayResolved 1; AudioEnded 1; ClickReplay;
       AudioEnded 0; ClickShowAll; Elapse 100] init = Some s /\
    showAll s = true /\
    enabled s (TimerFires 2) = true /\
    callback <$> timers s !! 2 = Some DeferredPlay /\
    showAll (dispatch [["a"]] (TimerFires 2) s) = false /\
    showAll (handlePlay [["a"]] s) <> showAll s.
Proof. eexists. vm_compute. repeat split. discriminate. Qed.

End PlayerFacts.

(** * Properties of the speech utterance driver *)
Module SpeechFacts.
Import Speech.

(** ** Strings *)

Lemma startsWith_spec (t s : DOMString) :
  startsWith s t = true <-> exists r, s = t ++ r.
Proof.
  revert s. induction t as [|c t IH]; intros s.
  - destruct s; simpl; split; eauto.
  - destruct s as [|d s]; simpl.
    + split; [discriminate|]. intros [r Hr]. discriminate.
    + rewrite andb_true_iff, bool_decide_eq_true, IH. split.
      * intros [-> [r ->]]. eauto.
      * intros [r [= -> ->]]. eauto.
Qed.

Lemma includes_spec (t s : DOMString) :
  includes s t = true <-> exists l r, s = l ++ t ++ r.
Proof.
  induction s as [|d s IH]; cbn [includes]; rewrite orb_true_iff, startsWith_spec.
  - split.
    + intros [[r Hr]|H]; [|discriminate]. exists [], r. exact Hr.
    + intros (l & r & H). left. destruct l; [eauto|discriminate].
  - rewrite IH. split.
    + intros [[r Hr]|(l & r & ->)]; [exists [], r; exact Hr|].
      exists (d :: l), r. reflexivity.
    + intros (l & r & H). destruct l as [|d' l]; [left; eauto|].
      right. injection H as _ ->. eauto.
Qed.

(** The text consumed grows with [charIndex], so containment is monotone. *)
Lemma includes_prefix_mono (s t : DOMString) i j :
  i <= j -> includes (substring0 s i) t = true -> includes (substring0 s j) t = true.
Proof.
  unfold substring0. rewrite !includes_spec. intros Hij (l & r & H).
  exists l, (r ++ take (j - i) (drop i s)).
  replace j with (i + (j - i)) at 1 by lia.
  rewrite <- take_take_drop, H, <- !app_assoc. reflexivity.
Qed.

(** ** Sound effects *)

Lemma fired_play_same effect s :
  is_Some (soundEffectsRef s !! effect) ->
  fired effect (playSoundEffect effect s) = S (fired effect s) /\
  is_Some (soundEffectsRef (playSoundEffect effect s) !! effect).
Proof.
  intros [c Hc]. unfold playSoundEffect, fired. rewrite Hc. cbn.
  rewrite lookup_insert_eq. split; [reflexivity|eauto].
Qed.

Lemma fired_play_other effect other s :
  effect <> other ->
  fired effect (playSoundEffect other s) = fired effect s /\
  (is_Some (soundEffectsRef s !! effect) ->
   is_Some (soundEffectsRef (playSoundEffect other s) !! effect)).
Proof.
  intros Hne. unfold playSoundEffect, fired.
  destruct (soundEffectsRef s !! other); cbn; [|tauto].
  rewrite lookup_insert_ne by congruence. tauto.
Qed.

Section Driver.

Variable calavera : DOMString.

Local Abbreviation onboundary := (onboundary calavera).
Local Abbreviation chains_check := (chains_check calavera).
Local Abbreviation narrate := (narrate calavera).
Local Abbreviation handlePlay := (handlePlay calavera).
Local Abbreviation newUtterance := (newUtterance calavera).

Lemma onboundary_chains c s :
  is_Some (soundEffectsRef s !! "chains") ->
  fired "chains" (onboundary c s) = fired "chains" s + (if chains_check c then 1 else 0) /\
  is_Some (soundEffectsRef (onboundary c s) !! "chains").
Proof.
  intros Hc. unfold Speech.onboundary.
  set (s1 := if chains_check c then playSoundEffect "chains" s else s).
  assert (H1 : fired "chains" s1 = fired "chains" s + (if chains_check c then 1 else 0)
               /\ is_Some (soundEffectsRef s1 !! "chains")).
  { subst s1. destruct (chains_check c).
    - destruct (fired_play_same "chains" s Hc) as [-> ?]. split; [lia|assumption].
    - split; [lia|exact Hc]. }
  destruct H1 as [H1 H1'].
  destruct (steps_check calavera c); [|split; assumption].
  destruct (fired_play_other "chains" "steps" s1) as [-> Hk]; [discriminate|].
  split; [exact H1|exact (Hk H1')].
Qed.

Lemma chains_check_window i j k :
  i <= j -> j <= k -> chains_check i = true -> chains_check k = true ->
  chains_check j = true.
Proof.
  unfold Speech.chains_check. cbn zeta. rewrite !andb_true_iff, !negb_true_iff.
  intros Hij Hjk [Hi _] [_ Hk]. split.
  - exact (includes_prefix_mono _ _ i j Hij Hi).
  - destruct (includes (substring0 calavera j) trigger_chains_stop) eqn:Hj; [|reflexivity].
    rewrite (includes_prefix_mono _ _ j k Hjk Hj) in Hk. discriminate.
Qed.

Lemma chains_check_closed i j :
  i <= j -> includes (substring0 calavera i) trigger_chains_stop = true ->
  chains_check j = false.
Proof.
  intros Hij Hi. unfold Speech.chains_check. cbn zeta.
  rewrite (includes_prefix_mono _ _ i j Hij Hi). apply andb_false_r.
Qed.

(** C5, as the code has it.  In a narration pass the boundary callback starts
    the "chains" clip once on every boundary whose consumed text contains
    "la Calaca" and not yet "la Calaca, la mera-mera", so as many times as
    there are such boundaries; these boundaries lie in one window of
    [charIndex] values, and from a boundary whose consumed text contains the
    longer string on, the clip is not started again. *)
Theorem chains_fires_on_each_boundary_in_window s boundaries
    (Hclip : is_Some (soundEffectsRef s !! "chains")) :
  fired "chains" (narrate boundaries s) =
    fired "chains" s + length (filter (fun c => chains_check c = true) boundaries) /\
  (forall i j k, i <= j -> j <= k ->
     chains_check i = true -> chains_check k = true -> chains_check j = true) /\
  (forall i j, i <= j ->
     includes (substring0 calavera i) trigger_chains_stop = true ->
     chains_check j = false).
Proof.
  split; [|split; [exact chains_check_window|exact chains_check_closed]].
  revert s Hclip. unfold Speech.narrate.
  induction boundaries as [|c bs IH]; intros s Hclip; cbn [foldl].
  - rewrite filter_nil. simpl. lia.
  - destruct (onboundary_chains c s Hclip) as [Hf Hc].
    rewrite (IH _ Hc), Hf, filter_cons.
    destruct (chains_check c); [rewrite decide_True by reflexivity|rewrite decide_False by discriminate];
      simpl; lia.
Qed.

(** ** [handlePlay] *)

Lemma spanishVoice_found (vs : list Voice) v :
  v ∈ vs -> startsWith (voice_lang v) (utf16 "es") = true ->
  exists v', spanishVoice vs = Some v' /\ v' ∈ vs /\
             startsWith (voice_lang v') (utf16 "es") = true.
Proof.
  intros Hin Hv. unfold spanishVoice.
  destruct (List.find _ vs) as [v'|] eqn:Hfind.
  - apply List.find_some in Hfind as [Hin' Hv'].
    exists v'. rewrite list_elem_of_In. auto.
  - apply list_elem_of_In in Hin.
    pose proof (List.find_none _ _ Hfind v Hin) as Hno. simpl in Hno. congruence.
Qed.

Lemma spanishVoice_default (vs : list Voice) :
  (forall v, v ∈ vs -> startsWith (voice_lang v) (utf16 "es") = false) ->
  spanishVoice vs = None.
Proof.
  intros Hno. unfold spanishVoice.
  destruct (List.find _ vs) as [v'|] eqn:Hfind; [|reflexivity].
  apply List.find_some in Hfind as [Hin' Hv'].
  apply list_elem_of_In in Hin'. rewrite (Hno v' Hin') in Hv'. discriminate.
Qed.

Lemma spanishVoice_skips (vs1 vs2 : list Voice) v :
  (forall x, x ∈ vs1 -> startsWith (voice_lang x) (utf16 "es") = false) ->
  startsWith (voice_lang v) (utf16 "es") = true ->
  spanishVoice (vs1 ++ v :: vs2) = Some v.
Proof.
  intros Hno Hv. unfold spanishVoice.
  induction vs1 as [|x vs1 IH]; cbn [app List.find].
  - rewrite Hv. reflexivity.
  - rewrite (Hno x) by (apply list_elem_of_here).
    apply IH. intros y Hy. apply Hno. apply list_elem_of_further, Hy.
Qed.

Lemma handlePlay_supported s e :
  isSupported s = true -> synth s = Some e ->
  handlePlay s =
  set_synth (speak (newUtterance (voices e)) (cancel e))
    (set_utteranceRef (Some (newUtterance (voices e))) s).
Proof.
  intros Hsup He. unfold Speech.handlePlay. rewrite Hsup, He. reflexivity.
Qed.

(** C6, as the code has it.  On a host with speech synthesis, play() empties
    the engine's queue, builds one utterance of the full text with the first
    enumerated voice whose language starts with "es" (voices before it that
    are not Spanish are passed over, Spanish voices after it are not taken;
    the default voice if there is none), rate 0.9, pitch 1 and volume 1, and
    queues it; after two plays in a row the queue holds exactly that one
    utterance.  On a host without speech synthesis play() only alerts the
    user. *)
Theorem play_builds_one_utterance s e
    (Hsup : isSupported s = true) (Hsynth : synth s = Some e) :
  let s1 := handlePlay s in
  let u := newUtterance (voices e) in
  synth s1 = Some (mkSynth [u] (synth_paused e) (voices e)) /\
  utteranceRef s1 = Some u /\
  text u = calavera /\ rate u = 9 # 10 /\ pitch u = 1%Q /\ volume u = 1%Q /\
  (forall v, v ∈ voices e -> startsWith (voice_lang v) (utf16 "es") = true ->
     exists v', voice u = Some v' /\ v' ∈ voices e /\
                startsWith (voice_lang v') (utf16 "es") = true) /\
  (forall vs1 v vs2, voices e = vs1 ++ v :: vs2 ->
     (forall x, x ∈ vs1 -> startsWith (voice_lang x) (utf16 "es") = false) ->
     startsWith (voice_lang v) (utf16 "es") = true ->
     voice u = Some v) /\
  ((forall v, v ∈ voices e -> startsWith (voice_lang v) (utf16 "es") = false) ->
     voice u = None) /\
  synth (handlePlay s1) = Some (mkSynth [u] (synth_paused e) (voices e)) /\
  (forall s0, isSupported s0 = false ->
     handlePlay s0 =
     alert "Tu navegador no soporta Text-to-Speech. Por favor usa Chrome, Edge o Safari." s0).
Proof.
  intros s1 u.
  assert (H1 : s1 = set_synth (speak u (cancel e)) (set_utteranceRef (Some u) s))
    by exact (handlePlay_supported s e Hsup Hsynth).
  split; [rewrite H1; reflexivity|]. split; [rewrite H1; reflexivity|].
  do 4 (split; [reflexivity|]).
  split; [exact (spanishVoice_found (voices e))|].
  split.
  { intros vs1 v vs2 Hvs Hno Hv. subst u. cbn [newUtterance voice].
    rewrite Hvs. exact (spanishVoice_skips vs1 vs2 v Hno Hv). }
  split; [exact (spanishVoice_default (voices e))|].
  split.
  - rewrite (handlePlay_supported s1 (speak u (cancel e))); rewrite H1; try reflexivity.
    exact Hsup.
  - intros s0 H0. unfold Speech.handlePlay. rewrite H0. reflexivity.
Qed.

End Driver.

(** ** Concrete narrations *)

Lemma chains_fires_on_each_boundary_in_window_witness :
  let s := mount (Some (mkSynth [] false [])) in
  let calavera := utf16 "la Calaca, la mera-mera vino" in
  is_Some (soundEffectsRef s !! "chains") /\
  fired "chains" (narrate calavera [0; 3; 11; 14; 24] s) =
    fired "chains" s
    + length (filter (fun c => chains_check calavera c = true) [0; 3; 11; 14; 24]).
Proof.
  intros s calavera.
  assert (Hclip : is_Some (soundEffectsRef s !! "chains")).
  { exists (mkClip "/sounds/chains.mp3" "auto" 0%N 0). vm_compute. reflexivity. }
  split; [exact Hclip|].
  exact (proj1 (chains_fires_on_each_boundary_in_window calavera s [0; 3; 11; 14; 24] Hclip)).
Defined.

(** C5, as stated, fails: narrating "la Calaca, la mera-mera vino", with a
    boundary at the start of each word, starts the "chains" clip twice, at
    the boundaries before "la" and before "mera-mera". *)
Lemma chains_fires_twice :
  let s := mount (Some (mkSynth [] false [])) in
  let calavera := utf16 "la Calaca, la mera-mera vino" in
  fired "chains" s = 0 /\
  fired "chains" (narrate calavera [0; 3; 11; 14; 24] s) = 2 /\
  ~ fired "chains" (narrate calavera [0; 3; 11; 14; 24] s) <= 1.
Proof.
  intros s calavera.
  assert (H : fired "chains" (narrate calavera [0; 3; 11; 14; 24] s) = 2)
    by (vm_compute; reflexivity).
  split; [vm_compute; reflexivity|]. split; [exact H|]. rewrite H. lia.
Qed.

Lemma play_builds_one_utterance_witness :
  let alex := mkVoice "Alex" (utf16 "en-US") in
  let paulina := mkVoice "Paulina" (utf16 "es-MX") in
  let jorge := mkVoice "Jorge" (utf16 "es-ES") in
  let e := mkSynth [] false [alex; paulina; jorge] in
  let s := mount (Some e) in
  let calavera := utf16 "la Calaca" in
  isSupported s = true /\ synth s = Some e /\
  utteranceRef (handlePlay calavera s) = Some (newUtterance calavera (voices e)) /\
  voice (newUtterance calavera (voices e)) = Some paulina.
Proof.
  intros alex paulina jorge e s calavera.
  assert (Hsup : isSupported s = true) by reflexivity.
  assert (Hsynth : synth s = Some e) by reflexivity.
  destruct (play_builds_one_utterance calavera s e Hsup Hsynth)
    as (_ & H & _ & _ & _ & _ & _ & Hfirst & _).
  split; [exact Hsup|]. split; [exact Hsynth|]. split; [exact H|].
  apply (Hfirst [alex] paulina [jorge]); [reflexivity| |reflexivity].
  intros x Hx. apply list_elem_of_singleton in Hx. subst x. reflexivity.
Defined.

(** C6, as stated, fails: on a host without speech synthesis play() builds
    no utterance, once or twice in a row. *)
Lemma play_refused_without_speech :
  let s := mount None in
  let calavera := utf16 "la Calaca" in
  isSupported s = false /\
  utteranceRef (handlePlay calavera s) = None /\
  synth (handlePlay calavera s) = None /\
  utteranceRef (handlePlay calavera (handlePlay calavera s)) = None /\
  alerts (handlePlay calavera s) =
    ["Tu navegador no soporta Text-to-Speech. Por favor usa Chrome, Edge o Safari."].
Proof. intros s calavera. vm_compute. repeat split. Qed.

End SpeechFacts.

(** * The rest of the sequencer: timers, assets, cleanup and render *)
Module PlayerMore.
Import Player PlayerFacts.

Section Sequencer.

Variable stanzas : list (list string).

Local Abbreviation N := (length stanzas).
Local Abbreviation playStanza := (playStanza stanzas).
Local Abbreviation handlePlay := (handlePlay stanzas).
Local Abbreviation handleResume := (handleResume stanzas).
Local Abbreviation handleEnded := (handleEnded stanzas).
Local Abbreviation dispatch := (dispatch stanzas).
Local Abbreviation reachable := (reachable stanzas).
Local Abbreviation well_formed := (well_formed stanzas).

(** ** Tables that only grow *)

Lemma alter_idemp {A} (f : A -> A) i (l : list A) :
  (forall x, f (f x) = f x) -> alter f i (alter f i l) = alter f i l.
Proof.
  intros Hf. revert i. induction l as [|x l IH]; intros [|i]; simpl; [done..| |].
  - rewrite Hf. reflexivity.
  - f_equal. apply IH.
Qed.

Lemma lookup_alter_inv {A} (f : A -> A) i j (l : list A) y :
  alter f i l !! j = Some y ->
  exists x, l !! j = Some x /\ (y = x \/ (i = j /\ y = f x)).
Proof.
  rewrite list_lookup_alter. destruct (decide (i = j)) as [->|Hne].
  - intros H. apply fmap_Some in H as (x & Hx & ->). eauto.
  - intros H. eauto.
Qed.

Lemma callback_alter_cancel t t' (l : list Timer) :
  callback <$> alter Player.cancel t l !! t' = callback <$> l !! t'.
Proof.
  rewrite list_lookup_alter. destruct (decide (t = t')) as [->|]; [|reflexivity].
  destruct (l !! t'); reflexivity.
Qed.

Lemma callback_snoc t (l : list Timer) tm cb :
  callback <$> l !! t = Some cb -> callback <$> (l ++ [tm]) !! t = Some cb.
Proof.
  intros H. apply fmap_Some in H as (tm0 & H0 & ->).
  rewrite (lookup_app_l_Some _ _ _ _ H0). reflexivity.
Qed.

Lemma timer_ok_mono (l l' : list Audio) tm :
  length l <= length l' ->
  (forall a au, l !! a = Some au -> exists au', l' !! a = Some au' /\ index au' = index au) ->
  timer_ok l tm -> timer_ok l' tm.
Proof.
  intros Hlen Hl [Hd Hk]. split; [exact Hd|].
  destruct (callback tm) as [a|next|]; [| |exact Hk].
  - destruct Hk as [? ?]. split; [assumption|lia].
  - destruct Hk as [? (a & au & Hau & ->)]. split; [assumption|].
    destruct (Hl a au Hau) as (au' & Hau' & <-). eauto.
Qed.

(** ** What the sequencer schedules and creates *)

Lemma well_formed_frame s s' :
  audios s' = audios s -> timers s' = timers s ->
  fallbackTimerRef s' = fallbackTimerRef s ->
  well_formed s -> well_formed s'.
Proof.
  intros Ha Ht Hr Hs. unfold Player.well_formed. rewrite Ha, Ht, Hr. exact Hs.
Qed.

Lemma well_formed_on_audio f a s :
  (forall au, index (f au) = index au /\ src (f au) = src au /\
              fallbackTimer (f au) = fallbackTimer au) ->
  well_formed s -> well_formed (on_audio f a s).
Proof.
  intros Hf (W1 & W2 & W3 & W4).
  unfold Player.well_formed. cbn [on_audio set_audios audios timers fallbackTimerRef].
  split; [|split; [exact W2|split]].
  - intros t tm Ht. apply (timer_ok_mono (audios s)); [rewrite length_alter; lia| |exact (W1 t tm Ht)].
    intros a' au Hau. rewrite list_lookup_alter. destruct (decide (a = a')) as [->|].
    + rewrite Hau. eexists. split; [reflexivity|apply Hf].
    + eauto.
  - intros a' au' t Hau Hft. apply lookup_alter_inv in Hau as (au0 & H0 & [->|[_ ->]]).
    + exact (W3 a' au0 t H0 Hft).
    + destruct (Hf au0) as (Hi & _ & Ht). rewrite Hi. rewrite Ht in Hft.
      exact (W3 a' au0 t H0 Hft).
  - intros a' au' Hau. apply lookup_alter_inv in Hau as (au0 & H0 & [->|[_ ->]]).
    + exact (W4 a' au0 H0).
    + destruct (Hf au0) as (Hi & Hs & _). rewrite Hi, Hs. exact (W4 a' au0 H0).
Qed.

Lemma well_formed_clearTimeout t s : well_formed s -> well_formed (clearTimeout t s).
Proof.
  intros (W1 & W2 & W3 & W4).
  unfold Player.well_formed. cbn [clearTimeout set_timers audios timers fallbackTimerRef].
  split; [|split; [|split; [|exact W4]]].
  - intros t' tm Ht. apply lookup_alter_inv in Ht as (tm0 & H0 & [->|[_ ->]]);
      exact (W1 t' tm0 H0).
  - intros t' Hr. rewrite callback_alter_cancel. exact (W2 t' Hr).
  - intros a au t' Hau Hft. rewrite callback_alter_cancel. exact (W3 a au t' Hau Hft).
Qed.

Lemma well_formed_setTimeout cb ms s :
  timer_ok (audios s) (mkTimer cb ms (now s + ms) true) ->
  well_formed s -> well_formed (snd (setTimeout cb ms s)).
Proof.
  intros Hok (W1 & W2 & W3 & W4).
  unfold Player.well_formed. cbn [setTimeout snd set_timers audios timers fallbackTimerRef].
  split; [|split; [|split; [|exact W4]]].
  - intros t tm Ht. apply lookup_app_Some in Ht as [Ht|[_ Ht]]; [exact (W1 t tm Ht)|].
    apply list_lookup_singleton_Some in Ht as [_ <-]. exact Hok.
  - intros t Hr. destruct (W2 t Hr) as [next Hn]. exists next. apply callback_snoc, Hn.
  - intros a au t Hau Hft. apply callback_snoc, (W3 a au t Hau Hft).
Qed.

Lemma well_formed_useFallback a s : well_formed s -> well_formed (useFallback a s).
Proof.
  intros Hs. unfold useFallback, with_audio.
  destruct (audios s !! a) as [au|] eqn:Hau; [|exact Hs].
  cbn [setTimeout].
  set (tm := mkTimer (FallbackAdvance (index au + 1)) 10000 (now s + 10000) true).
  assert (H1 : well_formed (snd (setTimeout (FallbackAdvance (index au + 1)) 10000 s))).
  { apply well_formed_setTimeout; [|exact Hs]. split; [cbn; lia|]. cbn. eauto. }
  cbn [setTimeout snd] in H1. destruct H1 as (W1 & W2 & W3 & W4).
  unfold Player.well_formed.
  cbn [on_audio set_audios set_timers set_fallbackTimerRef audios timers fallbackTimerRef] in *.
  assert (Hnew : callback <$> (timers s ++ [tm]) !! length (timers s)
                 = Some (FallbackAdvance (index au + 1))).
  { rewrite list_lookup_middle by reflexivity. reflexivity. }
  split; [|split; [|split]].
  - intros t tm' Ht. apply (timer_ok_mono (audios s)); [rewrite length_alter; lia| |exact (W1 t tm' Ht)].
    intros a' au' Hau'. rewrite list_lookup_alter. destruct (decide (a = a')) as [->|].
    + rewrite Hau'. eexists. split; reflexivity.
    + eauto.
  - intros t [= <-]. eauto.
  - intros a' au' t Hau' Hft. apply lookup_alter_inv in Hau' as (au0 & H0 & [->|[-> ->]]).
    + exact (W3 a' au0 t H0 Hft).
    + cbn in Hft. injection Hft as <-. rewrite Hau in H0. injection H0 as <-. exact Hnew.
  - intros a' au' Hau'. apply lookup_alter_inv in Hau' as (au0 & H0 & [->|[_ ->]]);
      exact (W4 a' au0 H0).
Qed.

Lemma well_formed_playStanza i s : well_formed s -> well_formed (playStanza i s).
Proof.
  intros Hs. unfold Player.playStanza. case_decide as Hi; [exact Hs|].
  destruct Hs as (W1 & W2 & W3 & W4). unfold Player.well_formed. cbn.
  split; [|split; [|split]].
  - intros t tm Ht. apply lookup_app_Some in Ht as [Ht|[_ Ht]].
    + apply (timer_ok_mono (audios s)); [rewrite length_app; lia| |exact (W1 t tm Ht)].
      intros a au Hau. exists au. split; [apply lookup_app_l_Some, Hau|reflexivity].
    + apply list_lookup_singleton_Some in Ht as [_ <-].
      split; [cbn; lia|]. cbn. split; [reflexivity|]. rewrite length_app. cbn. lia.
  - intros t Hr. destruct (W2 t Hr) as [next Hn]. exists next. apply callback_snoc, Hn.
  - intros a au t Hau Hft. apply lookup_app_Some in Hau as [Hau|[_ Hau]].
    + apply callback_snoc, (W3 a au t Hau Hft).
    + apply list_lookup_singleton_Some in Hau as [_ <-]. discriminate Hft.
  - intros a au Hau. apply lookup_app_Some in Hau as [Hau|[_ Hau]]; [exact (W4 a au Hau)|].
    apply list_lookup_singleton_Some in Hau as [_ <-]. cbn. split; [reflexivity|lia].
Qed.

Ltac keeps_fields := intros; repeat split; reflexivity.

Lemma well_formed_handleError a s : well_formed s -> well_formed (handleError a s).
Proof.
  intros Hs. unfold handleError, with_audio. case_match; [|exact Hs].
  apply well_formed_useFallback.
  eapply well_formed_frame; [..|exact Hs]; reflexivity.
Qed.

Lemma well_formed_canPlayCatch a s : well_formed s -> well_formed (canPlayCatch a s).
Proof.
  intros Hs. unfold canPlayCatch, with_audio. case_match; [|exact Hs].
  apply well_formed_useFallback.
  eapply well_formed_frame; [..|exact Hs]; reflexivity.
Qed.

Lemma well_formed_release s :
  well_formed s ->
  well_formed
    (match fallbackTimerRef s with
     | Some t => clearTimeout t s
     | None => s
     end).
Proof. intros Hs. case_match; [apply well_formed_clearTimeout|]; exact Hs. Qed.

Lemma well_formed_handlePause s : well_formed s -> well_formed (handlePause s).
Proof.
  intros Hs. unfold handlePause.
  eapply well_formed_frame; [reflexivity..|]. apply well_formed_release.
  case_match; [|exact Hs]. apply well_formed_on_audio; [keeps_fields|exact Hs].
Qed.

Lemma well_formed_cleanup s : well_formed s -> well_formed (cleanup s).
Proof.
  intros Hs. unfold cleanup. apply well_formed_release.
  case_match; [|exact Hs].
  eapply well_formed_frame; [reflexivity..|].
  apply well_formed_on_audio; [keeps_fields|exact Hs].
Qed.

Lemma well_formed_handleStop s : well_formed s -> well_formed (handleStop s).
Proof.
  intros Hs.
  apply (well_formed_frame (cleanup s)); [reflexivity..|].
  apply well_formed_cleanup, Hs.
Qed.

Lemma well_formed_handlePlay s : well_formed s -> well_formed (handlePlay s).
Proof.
  intros Hs. unfold Player.handlePlay. apply well_formed_playStanza.
  eapply well_formed_frame; [..|exact Hs]; reflexivity.
Qed.

Lemma well_formed_dispatch e s : well_formed s -> well_formed (dispatch e s).
Proof.
  intros Hs. destruct e; cbn [Player.dispatch].
  - apply well_formed_handlePlay, Hs.
  - apply well_formed_handlePause, Hs.
  - unfold Player.handleResume. cbn [currentAudioRef setPlayState currentStanzaIndex].
    assert (Hs' : well_formed (setPlayState playing s))
      by (eapply well_formed_frame; [..|exact Hs]; reflexivity).
    repeat case_match; try (apply well_formed_playStanza, Hs').
    apply well_formed_on_audio; [keeps_fields|exact Hs'].
  - apply well_formed_handleStop, Hs.
  - eapply well_formed_frame; [..|exact Hs]; reflexivity.
  - eapply well_formed_frame; [..|exact Hs]; reflexivity.
  - unfold handleReplay. apply well_formed_setTimeout.
    + split; [cbn; lia|reflexivity].
    + apply well_formed_handleStop, Hs.
  - unfold handleCanPlay, with_audio.
    assert (Hs' : well_formed (on_audio (set_media Ready) a s))
      by (apply well_formed_on_audio; [keeps_fields|exact Hs]).
    case_match; [|exact Hs'].
    do 2 (apply well_formed_on_audio; [keeps_fields|]). exact Hs'.
  - apply well_formed_handleError, well_formed_on_audio; [keeps_fields|exact Hs].
  - unfold Player.handleEnded, with_audio.
    assert (Hs' : well_formed (on_audio finish a s))
      by (apply well_formed_on_audio; [keeps_fields|exact Hs]).
    case_match; [|exact Hs'].
    apply well_formed_playStanza. case_match; [apply well_formed_clearTimeout|]; exact Hs'.
  - apply well_formed_on_audio; [keeps_fields|exact Hs].
  - assert (Hs' : well_formed (on_audio (settle true) a s))
      by (apply well_formed_on_audio; [keeps_fields|exact Hs]).
    destruct (audios s !! a ≫= _) as [[|]|]; [| |exact Hs].
    + apply well_formed_canPlayCatch, Hs'.
    + eapply well_formed_frame; [..|exact Hs']; reflexivity.
  - destruct (timers s !! t) as [tm|]; [|exact Hs].
    assert (Hs' : well_formed (clearTimeout t s)) by apply well_formed_clearTimeout, Hs.
    destruct (callback tm); cbn [run_callback].
    + unfold probe, with_audio. repeat case_match; try exact Hs'.
      apply well_formed_handleError, Hs'.
    + apply well_formed_playStanza, Hs'.
    + apply well_formed_handlePlay, Hs'.
  - eapply well_formed_frame; [..|exact Hs]; reflexivity.
Qed.

Lemma reachable_well_formed s : reachable s -> well_formed s.
Proof.
  induction 1 as [|s e s' _ IH [_ ->]].
  - repeat split; intros; discriminate.
  - apply well_formed_dispatch, IH.
Qed.

(** X1. Every timer the sequencer has scheduled, in any reachable state, has
    the delay of its kind (500 ms for a probe, 10000 ms for a fallback,
    100 ms for the deferred play of replay) and is due no earlier than that
    delay; a probe names an existing audio element and a fallback advances to
    the index after that of an existing element. *)
Theorem timers_have_fixed_delays s t tm :
  reachable s -> timers s !! t = Some tm ->
  (delay tm <= due tm)%N /\
  match callback tm with
  | ProbeTimeout a => delay tm = 500%N /\ a < length (audios s)
  | FallbackAdvance next =>
      delay tm = 10000%N /\
      exists a au, audios s !! a = Some au /\ next = index au + 1
  | DeferredPlay => delay tm = 100%N
  end.
Proof.
  intros Hs Ht. destruct (reachable_well_formed s Hs) as (W1 & _).
  exact (W1 t tm Ht).
Qed.

(** X2. Every audio element the sequencer has created, in any reachable
    state, is the asset of a stanza of the list under the 1-based naming
    convention: its source is /sounds/stanza{index + 1}.wav with
    1 <= index + 1 <= N. *)
Theorem assets_follow_naming s a au :
  reachable s -> audios s !! a = Some au ->
  src au = "/sounds/stanza" +:+ pretty (index au + 1) +:+ ".wav" /\
  1 <= index au + 1 <= N.
Proof.
  intros Hs Hau. destruct (reachable_well_formed s Hs) as (_ & _ & _ & W4).
  destruct (W4 a au Hau) as [Hsrc Hi]. split; [exact Hsrc|lia].
Qed.

Lemma string_length_append (x z : string) :
  String.length (x +:+ z) = String.length x + String.length z.
Proof. induction x as [|c x IH]; simpl; [reflexivity|]. rewrite IH. reflexivity. Qed.

Lemma string_append_cancel_r (z x y : string) : x +:+ z = y +:+ z -> x = y.
Proof.
  revert y. induction x as [|c x IH]; intros [|d y] H.
  - reflexivity.
  - apply (f_equal String.length) in H.
    rewrite !string_length_append in H. simpl in H. lia.
  - apply (f_equal String.length) in H.
    rewrite !string_length_append in H. simpl in H. lia.
  - simpl in H. injection H as -> H. f_equal. apply IH, H.
Qed.

(** X3. Different stanza indices have different asset paths. *)
Theorem audioPath_inj i j : audioPath i = audioPath j -> i = j.
Proof.
  unfold audioPath. intros H.
  apply String.app_inj in H. apply string_append_cancel_r in H.
  apply (inj pretty) in H. lia.
Qed.

(** ** Releasing: stop, pause and unmount *)

Lemma cleanup_timers s :
  timers (cleanup s) =
  match fallbackTimerRef s with
  | Some t => alter Player.cancel t (timers s)
  | None => timers s
  end.
Proof.
  unfold cleanup.
  destruct (currentAudioRef s), (fallbackTimerRef s) eqn:Ht; simpl; rewrite ?Ht; reflexivity.
Qed.

Lemma cleanup_audios s :
  audios (cleanup s) =
  match currentAudioRef s with
  | Some a => alter el_pause a (audios s)
  | None => audios s
  end.
Proof.
  unfold cleanup.
  destruct (currentAudioRef s), (fallbackTimerRef s) eqn:Ht; simpl; rewrite ?Ht; reflexivity.
Qed.

Lemma handleStop_cleanup s :
  handleStop s = setCurrentStanzaIndex 0 (setPlayState idle (cleanup s)).
Proof. reflexivity. Qed.

(** X4. Stop, pause and the unmount cleanup cancel no timer but the one
    recorded in [fallbackTimerRef], and in a reachable state that one is a
    fallback timer: every 500 ms probe and every deferred play of replay is,
    after any of the three, exactly as it was before. *)
Theorem release_spares_probes s t tm :
  reachable s -> timers s !! t = Some tm ->
  (forall next, callback tm <> FallbackAdvance next) ->
  timers (handleStop s) !! t = Some tm /\
  timers (handlePause s) !! t = Some tm /\
  timers (cleanup s) !! t = Some tm.
Proof.
  intros Hs Ht Hcb. destruct (reachable_well_formed s Hs) as (_ & W2 & _).
  assert (H : match fallbackTimerRef s with
              | Some t0 => alter Player.cancel t0 (timers s)
              | None => timers s
              end !! t = Some tm).
  { destruct (fallbackTimerRef s) as [t0|] eqn:Hr; [|exact Ht].
    destruct (W2 t0 eq_refl) as [next Hn].
    rewrite list_lookup_alter_ne; [exact Ht|]. intros ->.
    rewrite Ht in Hn. injection Hn as Hn. exact (Hcb next Hn). }
  rewrite handleStop_cleanup. cbn [setCurrentStanzaIndex setPlayState timers].
  rewrite handlePause_timers, cleanup_timers. auto.
Qed.

(** X5. Stopping twice is stopping once, pausing twice is pausing once, and
    so for the unmount cleanup. *)
Theorem release_idempotent s :
  handleStop (handleStop s) = handleStop s /\
  handlePause (handlePause s) = handlePause s /\
  cleanup (cleanup s) = cleanup s.
Proof.
  assert (Hc : forall t l, alter Player.cancel t (alter Player.cancel t l)
                           = alter Player.cancel t l)
    by (intros; apply alter_idemp; reflexivity).
  assert (Hp : forall a l, alter el_pause a (alter el_pause a l) = alter el_pause a l)
    by (intros; apply alter_idemp; reflexivity).
  destruct s as [ps i sa [a|] [t|] aus tms n c];
    cbv [handleStop handlePause cleanup setCurrentStanzaIndex setPlayState
         clearTimeout set_currentAudioRef on_audio set_audios set_timers
         playState currentStanzaIndex showAll currentAudioRef fallbackTimerRef
         audios timers now console];
    rewrite ?Hc, ?Hp; (split; [reflexivity|split; reflexivity]).
Qed.

(** X6. The unmount cleanup releases exactly what stop releases (stop is the
    cleanup followed by the reset to [idle] and index 0): afterwards no
    handle is held, the element that was held is paused and the timer that
    was recorded is not pending; unlike stop, it keeps the play state and
    the index. *)
Theorem cleanup_releases_like_stop s :
  handleStop s = setCurrentStanzaIndex 0 (setPlayState idle (cleanup s)) /\
  playState (cleanup s) = playState s /\
  currentStanzaIndex (cleanup s) = currentStanzaIndex s /\
  currentAudioRef (cleanup s) = None /\
  entered (cleanup s) = entered s /\
  (forall a au, currentAudioRef s = Some a -> audios (cleanup s) !! a = Some au ->
     el_paused au = true) /\
  (forall t tm, fallbackTimerRef s = Some t -> timers (cleanup s) !! t = Some tm ->
     pending tm = false).
Proof.
  split; [reflexivity|].
  assert (Hv : playState (cleanup s) = playState s /\
               currentStanzaIndex (cleanup s) = currentStanzaIndex s /\
               currentAudioRef (cleanup s) = None).
  { unfold cleanup.
    destruct s as [ps i sa [a|] [t|] aus tms n c];
      cbv [cleanup clearTimeout set_currentAudioRef on_audio set_audios set_timers
           playState currentStanzaIndex showAll currentAudioRef fallbackTimerRef
           audios timers now console];
      (split; [reflexivity|split; reflexivity]). }
  destruct Hv as (H1 & H2 & H3).
  split; [exact H1|]. split; [exact H2|]. split; [exact H3|].
  split; [|split].
  - unfold entered. rewrite cleanup_audios. case_match; [|reflexivity].
    apply fmap_index_alter. reflexivity.
  - intros a au Hr. rewrite cleanup_audios, Hr, list_lookup_alter_eq.
    intros H. apply fmap_Some in H as (au0 & _ & ->). reflexivity.
  - intros t tm Hr. rewrite cleanup_timers, Hr, list_lookup_alter_eq.
    intros H. apply fmap_Some in H as (tm0 & _ & ->). reflexivity.
Qed.

(** ** What the renders show *)

Local Abbreviation currentLines := (currentLines stanzas).
Local Abbreviation counter := (counter stanzas).
Local Abbreviation highlights := (highlights stanzas).

(** X7. In every reachable state in which the sequencer is playing or
    paused, the stanza of the main render exists (the optional chaining on
    [stanzas[currentStanzaIndex]] never meets undefined), and while playing
    the counter reads "Estrofa k de N" with 1 <= k <= N. *)
Theorem shown_stanza_exists s :
  reachable s -> playState s = playing \/ playState s = paused ->
  (exists lines, stanzas !! currentStanzaIndex s = Some lines /\ currentLines s = lines) /\
  (playState s = playing ->
   exists k, counter s = Some (k, N) /\ k = currentStanzaIndex s + 1 /\ 1 <= k <= N).
Proof.
  intros Hs Hp. destruct (reachable_holds_audio stanzas s Hs) as [_ Hb].
  destruct (Hb Hp) as [_ Hi]. split.
  - destruct (lookup_lt_is_Some_2 stanzas _ Hi) as [lines Hl].
    exists lines. split; [exact Hl|].
    unfold Player.currentLines. rewrite Hl.
    destruct Hp as [-> | ->]; reflexivity.
  - intros Hpl. eexists. unfold Player.counter. rewrite Hpl.
    split; [reflexivity|]. split; [reflexivity|lia].
Qed.

Lemma filter_seq_eq k n j :
  filter (fun i => bool_decide (i = k) = true) (seq j n) =
  if decide (j <= k < j + n) then [k] else [].
Proof.
  revert j. induction n as [|n IH]; intros j.
  - case_decide; [exfalso; lia|reflexivity].
  - cbn [seq]. rewrite filter_cons, IH.
    destruct (decide (j = k)) as [->|Hne].
    + rewrite bool_decide_eq_true_2 by reflexivity.
      rewrite decide_True by reflexivity.
      rewrite decide_False by lia. rewrite decide_True by lia. reflexivity.
    + rewrite bool_decide_eq_false_2 by exact Hne.
      rewrite decide_False by discriminate.
      destruct (decide (S j <= k < S j + n)); [rewrite decide_True by lia|rewrite decide_False by lia];
        reflexivity.
Qed.

Lemma filter_none {A} (P : A -> bool) (l : list A) :
  (forall x, P x = false) -> filter (fun x => P x = true) l = [].
Proof.
  intros HP. induction l as [|x l IH]; [reflexivity|].
  rewrite filter_cons, IH, decide_False; [reflexivity|]. rewrite HP. discriminate.
Qed.

(** X8. In every reachable state the show-all render highlights exactly one
    stanza while playing, the current one, and none in any other state. *)
Theorem one_stanza_highlighted s :
  reachable s ->
  highlights s = if bool_decide (playState s = playing) then [currentStanzaIndex s] else [].
Proof.
  intros Hs. unfold Player.highlights, highlighted.
  destruct (decide (playState s = playing)) as [Hp|Hp].
  - rewrite !bool_decide_eq_true_2 by exact Hp.
    destruct (reachable_holds_audio stanzas s Hs) as [_ Hb].
    destruct (Hb (or_introl Hp)) as [_ Hi].
    rewrite <- (decide_True (A:=list nat) [currentStanzaIndex s] [] (P := 0 <= currentStanzaIndex s < 0 + N)) by lia.
    rewrite <- filter_seq_eq. apply list_filter_iff. intros i.
    rewrite andb_true_r. reflexivity.
  - rewrite !bool_decide_eq_false_2 by exact Hp.
    apply (filter_none (fun i => bool_decide (i = currentStanzaIndex s) && false)).
    intros i. apply andb_false_r.
Qed.

(** ** What host events and replay do to the play state *)

Lemma host_then s f a (h : State -> State) :
  (forall au, index (f au) = index au) ->
  (forall s0, same_view s0 (h s0)) ->
  playState (h (on_audio f a s)) = playState s.
Proof.
  intros Hf Hh.
  exact (proj1 (same_view_trans _ _ _ (on_audio_same_view f a s Hf) (Hh _))).
Qed.

(** X9. No audio event, probe or fallback timer ever starts playback: after
    an event of the host that is not the deferred play of replay, the play
    state is the one before, or [ended]. *)
Theorem host_events_never_start_playback e s :
  from_host e = true -> runs_handlePlay e s = false ->
  playState (dispatch e s) = playState s \/ playState (dispatch e s) = ended.
Proof.
  intros He Hr. destruct e; try discriminate He; cbn [Player.dispatch].
  - left. apply host_then; [reflexivity|apply handleCanPlay_same_view].
  - left. apply host_then; [reflexivity|apply handleError_same_view].
  - unfold Player.handleEnded, with_audio. case_match; [|left; reflexivity].
    rewrite playStanza_state. case_decide; [right; reflexivity|left].
    case_match; reflexivity.
  - left. reflexivity.
  - left. destruct (audios s !! a ≫= _) as [[|]|]; [| |reflexivity].
    + apply host_then; [reflexivity|apply canPlayCatch_same_view].
    + apply host_then; [reflexivity|apply warn_same_view].
  - cbn [runs_handlePlay] in Hr.
    destruct (timers s !! t) as [tm|]; [|left; reflexivity].
    cbn [fmap option_fmap option_map] in Hr.
    destruct (callback tm) as [a|next|]; [| |discriminate Hr]; cbn [run_callback].
    + left. exact (proj1 (same_view_trans _ _ _ (clearTimeout_same_view t s)
                            (probe_same_view a _))).
    + rewrite playStanza_state. case_decide; [right|left]; reflexivity.
  - left. reflexivity.
Qed.

(** X10. Replay stops at once and defers play by 100 ms: right after the
    click the sequencer is [idle] at index 0 with no handle held and one new
    pending timer, due 100 ms later; once those have elapsed the timer can
    fire, and when it fires on a non-empty list the sequencer is [playing]
    at index 0 in single-stanza view, holding a new element for stanza 0. *)
Theorem replay_defers_play s :
  0 < N ->
  let s1 := handleReplay s in
  let t := length (timers s) in
  let s2 := dispatch (TimerFires t) (dispatch (Elapse 100) s1) in
  (playState s1 = idle /\ currentStanzaIndex s1 = 0 /\ currentAudioRef s1 = None /\
   entered s1 = entered s) /\
  (timers s1 !! t = Some (mkTimer DeferredPlay 100 (now s + 100) true) /\
   length (timers s1) = S t /\
   enabled (dispatch (Elapse 99) s1) (TimerFires t) = false /\
   enabled (dispatch (Elapse 100) s1) (TimerFires t) = true) /\
  (playState s2 = playing /\ currentStanzaIndex s2 = 0 /\ showAll s2 = false /\
   currentAudioRef s2 = Some (length (audios s)) /\
   entered s2 = entered s ++ [0]).
Proof.
  intros HN s1 t s2.
  destruct (handleStop_view s) as (Hp & Hi & _ & Hr & He).
  assert (Hlen : length (timers (handleStop s)) = length (timers s)).
  { rewrite handleStop_cleanup. cbn [setCurrentStanzaIndex setPlayState timers].
    rewrite cleanup_timers. case_match; [apply length_alter|reflexivity]. }
  assert (Hnow : now (handleStop s) = now s).
  { unfold handleStop. repeat case_match; reflexivity. }
  assert (Ht1 : timers s1 = timers (handleStop s) ++ [mkTimer DeferredPlay 100 (now s + 100) true]).
  { subst s1. unfold handleReplay. cbn [setTimeout snd set_timers timers]. rewrite Hnow. reflexivity. }
  assert (Hl : timers s1 !! t = Some (mkTimer DeferredPlay 100 (now s + 100) true)).
  { rewrite Ht1. apply list_lookup_middle. subst t. rewrite Hlen. reflexivity. }
  assert (Hn1 : now s1 = now s) by exact Hnow.
  split; [repeat split; assumption|]. split.
  { split; [exact Hl|]. split; [rewrite Ht1, length_app, Hlen; cbn; lia|].
    unfold enabled, Player.dispatch, set_now. cbn [timers now]. rewrite Hl, Hn1.
    cbn [pending due andb]. split.
    - apply bool_decide_eq_false. lia.
    - apply bool_decide_eq_true. lia. }
  subst s2. cbn [Player.dispatch set_now timers]. rewrite Hl. cbn [callback run_callback].
  unfold Player.handlePlay.
  rewrite playStanza_state, playStanza_index, playStanza_showAll, playStanza_entered by exact HN.
  destruct (decide (N <= 0)) as [HN'|_]; [exfalso; lia|].
  split; [reflexivity|]. split; [reflexivity|]. split; [reflexivity|].
  split.
  - unfold Player.playStanza. rewrite decide_False by lia. cbn.
    f_equal. unfold handleReplay, handleStop. repeat case_match; cbn; rewrite ?length_alter; reflexivity.
  - f_equal. exact He.
Qed.

(** ** Playing again: timely playback from a quiet state *)

Local Abbreviation playing_from := (playing_from stanzas).
Local Abbreviation run_timely := (run_timely stanzas).

Lemma playing_from_current s0 k s a au :
  playing_from s0 k s -> audios s !! a = Some au -> ~ finished au ->
  playState s = playing /\ S a = length (audios s) /\ S (index au) = k.
Proof.
  intros (Hlen & He & _ & _ & Hfin & Hst & Hix) Hau Hnf.
  assert (Hp : playState s = playing).
  { destruct Hst as [Hp|(_ & _ & Hq)]; [exact Hp|].
    destruct (Hnf (proj1 (Hq a au Hau))). }
  assert (Ha : S a = length (audios s)).
  { apply lookup_lt_Some in Hau as Hlt.
    destruct (decide (S a < length (audios s))) as [Hs|Hs]; [|lia].
    destruct (Hnf (Hfin a au Hau Hs)). }
  split; [exact Hp|]. split; [exact Ha|].
  assert (H : entered s !! a = Some (index au)).
  { unfold entered. rewrite list_lookup_fmap, Hau. reflexivity. }
  rewrite He in H. specialize (Hix Hp).
  assert (Hm : length (entered s0) = length (audios s0))
    by (unfold entered; apply length_fmap).
  rewrite lookup_app_r in H by lia.
  apply lookup_seq in H as [H _]. simpl in H. lia.
Qed.

Lemma playing_from_alter s0 k f a s :
  playing_from s0 k s -> playState s = playing -> S a = length (audios s) ->
  (forall au, index (f au) = index au /\ fallbackTimer (f au) = fallbackTimer au) ->
  playing_from s0 k (on_audio f a s).
Proof.
  intros (Hlen & He & Hk & Hft & Hfin & Hst & Hix) Hp Ha Hf.
  unfold Player.playing_from, entered.
  cbn [on_audio set_audios audios timers playState currentStanzaIndex].
  rewrite length_alter, fmap_index_alter by (intros; apply Hf).
  split; [exact Hlen|]. split; [exact He|]. split; [exact Hk|].
  split; [|split; [|split; [left; exact Hp|exact Hix]]].
  - intros a' au' H. apply lookup_alter_inv in H as (au0 & H0 & [->|[_ ->]]).
    + exact (Hft a' au0 H0).
    + rewrite (proj2 (Hf au0)). exact (Hft a' au0 H0).
  - intros a' au' H Hlt. rewrite list_lookup_alter_ne in H by lia.
    exact (Hfin a' au' H Hlt).
Qed.

Lemma playing_from_next s0 k a au s :
  playing_from s0 k s -> playState s = playing -> S a = length (audios s) ->
  audios s !! a = Some au -> finished au ->
  exists k', playing_from s0 k' (playStanza k s).
Proof.
  intros (Hlen & He & Hk & Hft & Hfin & Hst & Hix) Hp Ha Hau Hfa.
  assert (Hall : forall a' au', audios s !! a' = Some au' -> finished au').
  { intros a' au' H. apply lookup_lt_Some in H as Hlt.
    destruct (decide (a' = a)) as [->|Hne].
    - rewrite Hau in H. injection H as <-. exact Hfa.
    - apply (Hfin a' au' H). lia. }
  unfold Player.playStanza. case_decide as HN.
  - exists k. unfold Player.playing_from.
    cbn [setPlayState audios timers playState entered].
    split; [exact Hlen|]. split; [exact He|]. split; [exact Hk|].
    split; [exact Hft|]. split; [exact Hfin|]. split; [|discriminate].
    right. split; [reflexivity|]. split; [lia|].
    intros a' au' H. split; [exact (Hall a' au' H)|exact (Hft a' au' H)].
  - exists (S k). unfold Player.playing_from, entered. cbn -[seq].
    rewrite fmap_app, length_app. cbn -[seq].
    split; [|split; [|split; [|split; [|split; [|split]]]]].
    + lia.
    + unfold entered in He. rewrite He, seq_S, <- app_assoc. reflexivity.
    + lia.
    + intros a' au' H. apply lookup_app_Some in H as [H|[_ H]]; [exact (Hft a' au' H)|].
      apply list_lookup_singleton_Some in H as [_ <-]. reflexivity.
    + intros a' au' H Hlt. apply lookup_app_Some in H as [H|[Hge H]]; [exact (Hall a' au' H)|].
      apply list_lookup_singleton_Some in H as [H _]. lia.
    + left. exact Hp.
    + reflexivity.
Qed.

Lemma playing_from_step s0 k e s :
  playing_from s0 k s -> enabled s e = true -> timely s e = true ->
  exists k', playing_from s0 k' (dispatch e s).
Proof.
  intros Hs He Hn. destruct e; try discriminate Hn;
    cbn [Player.dispatch enabled timely] in *.
  - unfold audio_can in He. destruct (audios s !! a) as [au|] eqn:Hau; [|discriminate].
    apply bool_decide_eq_true in He.
    destruct (playing_from_current s0 k s a au Hs Hau) as (Hp & Ha & _).
    { intros (_ & H & _). congruence. }
    exists k. rewrite (handleCanPlay_present a (set_media Ready au)).
    2:{ cbn. rewrite list_lookup_alter_eq, Hau. reflexivity. }
    repeat (apply playing_from_alter;
            [| try exact Hp | try (cbn; rewrite ?length_alter; exact Ha)
             | intros; split; reflexivity]).
    exact Hs.
  - unfold audio_can in He. destruct (audios s !! a) as [au|] eqn:Hau; [|discriminate].
    unfold is_playing in He.
    rewrite !andb_true_iff, negb_true_iff, !bool_decide_eq_true in He.
    destruct He as [[Hnp Hm] Hpr].
    destruct (playing_from_current s0 k s a au Hs Hau) as (Hp & Ha & Hi).
    { intros (H & _). congruence. }
    assert (Hs0 : playing_from s0 k (on_audio finish a s)).
    { apply playing_from_alter; [exact Hs|exact Hp|exact Ha|intros; split; reflexivity]. }
    assert (Hau0 : audios (on_audio finish a s) !! a = Some (finish au)).
    { cbn. rewrite list_lookup_alter_eq, Hau. reflexivity. }
    unfold Player.handleEnded, with_audio. rewrite Hau0.
    destruct Hs as (_ & _ & _ & Hft & _). cbn [finish el_pause fallbackTimer index].
    rewrite (Hft a au Hau), Nat.add_1_r, Hi.
    apply (playing_from_next s0 k a (finish au)); try assumption.
    + cbn. rewrite length_alter. exact Ha.
    + repeat split; assumption.
  - unfold audio_can in He. destruct (audios s !! a) as [au|] eqn:Hau; [|discriminate].
    rewrite !andb_true_iff, !negb_true_iff, bool_decide_eq_false in He.
    destruct He as [_ Hpr].
    destruct (playing_from_current s0 k s a au Hs Hau) as (Hp & Ha & _).
    { intros (_ & _ & H). contradiction. }
    exists k.
    apply playing_from_alter; [exact Hs|exact Hp|exact Ha|intros; split; reflexivity].
  - destruct (timers s !! t) as [tm|] eqn:Htm; [|discriminate].
    cbn in Hn. destruct (callback tm) as [a| |] eqn:Hcb; try discriminate.
    cbn [run_callback]. unfold probe, with_audio.
    cbn [clearTimeout set_timers audios]. unfold audio_can in Hn.
    destruct (audios s !! a) as [au|]; [|discriminate]. rewrite Hn.
    exists k. exact Hs.
  - exists k. exact Hs.
Qed.

Lemma playing_from_play s0 : quiet s0 -> exists k, playing_from s0 k (handlePlay s0).
Proof.
  intros Hq. unfold Player.handlePlay, Player.playStanza. case_decide as HN.
  - exists 0. unfold Player.playing_from, entered. cbn.
    rewrite app_nil_r. split; [lia|]. split; [reflexivity|]. split; [lia|].
    split; [intros a au H; exact (proj2 (Hq a au H))|].
    split; [intros a au H _; exact (proj1 (Hq a au H))|].
    split; [|discriminate]. right. split; [reflexivity|]. split; [lia|exact Hq].
  - exists 1. unfold Player.playing_from, entered. cbn -[seq].
    rewrite fmap_app, length_app. cbn.
    split; [reflexivity|]. split; [reflexivity|]. split; [lia|].
    split; [|split; [|split; [left; reflexivity|reflexivity]]].
    + intros a au H. apply lookup_app_Some in H as [H|[_ H]]; [exact (proj2 (Hq a au H))|].
      apply list_lookup_singleton_Some in H as [_ <-]. reflexivity.
    + intros a au H Hlt. apply lookup_app_Some in H as [H|[Hge H]]; [exact (proj1 (Hq a au H))|].
      apply list_lookup_singleton_Some in H as [H _]. lia.
Qed.

Lemma playing_from_run s0 es : forall k s s',
  playing_from s0 k s -> run_timely es s = Some s' -> exists k', playing_from s0 k' s'.
Proof.
  induction es as [|e es IH]; intros k s s' Hs; [intros [= <-]; eauto|].
  rewrite (run_timely_cons stanzas).
  destruct (enabled s e) eqn:He; [|discriminate].
  destruct (timely s e) eqn:Hn; [|discriminate].
  destruct (playing_from_step s0 k e s Hs He Hn) as [k' Hk'].
  apply (IH k' _ s' Hk').
Qed.

Lemma quiet_release s : quiet s -> quiet (handleStop s).
Proof.
  intros Hq a au. rewrite handleStop_cleanup.
  cbn [setCurrentStanzaIndex setPlayState audios]. rewrite cleanup_audios.
  case_match; [|apply Hq].
  intros Hl. apply lookup_alter_inv in Hl as (au0 & H0 & [->|[_ ->]]); [exact (Hq _ _ H0)|].
  destruct (Hq _ _ H0) as ((H1 & H2 & H3) & H4). repeat split; assumption.
Qed.

(** X20. Play started in a quiet state (the fresh page, or any state in which
    every audio element created so far has played to its end and armed no
    fallback) traverses the list, provided the playback that follows is
    timely: its only events are [canplay], the settling of play(), [ended],
    the passing of time, and 500 ms probes that fire after the [canplay] of
    their element (no click, no [error], no rejected play, no other timer).
    At every point of such a playback the stanzas entered since are 0, 1,
    ..., k-1 in order, each once, with k-1 the index shown while playing, and
    at [ended] they are exactly 0..N-1 and the state is quiet again.  So
    replay at the end of a timely playback (stop, then the deferred play
    100 ms later), followed by a timely playback again, traverses the same
    indices as the first play. *)
Theorem play_again_traverses_all s0 es s :
  quiet s0 -> run_timely es (handlePlay s0) = Some s ->
  (exists k,
     entered s = entered s0 ++ seq 0 k /\ k <= N /\
     (playState s = playing \/ playState s = ended) /\
     (playState s = playing -> S (currentStanzaIndex s) = k) /\
     (playState s = ended -> k = N /\ quiet s)) /\
  (playState s = ended ->
   let t := length (timers s) in
   let s1 := dispatch (TimerFires t) (dispatch (Elapse 100) (dispatch ClickReplay s)) in
   forall es' s',
     run_timely es' s1 = Some s' -> playState s' = ended ->
     entered s' = (entered s0 ++ seq 0 N) ++ seq 0 N).
Proof.
  intros Hq Hrun.
  assert (Hgen : forall s0 es s, quiet s0 -> run_timely es (handlePlay s0) = Some s ->
     exists k,
     entered s = entered s0 ++ seq 0 k /\ k <= N /\
     (playState s = playing \/ playState s = ended) /\
     (playState s = playing -> S (currentStanzaIndex s) = k) /\
     (playState s = ended -> k = N /\ quiet s)).
  { clear. intros s0 es s Hq Hrun.
    destruct (playing_from_play s0 Hq) as [k0 H0].
    destruct (playing_from_run s0 es k0 _ s H0 Hrun)
      as (k & _ & He & Hk & _ & _ & Hst & Hix).
    exists k. split; [exact He|]. split; [exact Hk|]. split; [|split; [exact Hix|]].
    - destruct Hst as [?|[? _]]; auto.
    - intros Hend. destruct Hst as [Hp|(_ & HN & Hq')]; [congruence|auto]. }
  split; [exact (Hgen s0 es s Hq Hrun)|].
  intros Hend t s1 es' s' Hrun' Hend'.
  destruct (Hgen s0 es s Hq Hrun) as (k & He & _ & _ & _ & Hk).
  destruct (Hk Hend) as [-> Hqs].
  assert (Hl : timers (handleReplay s) !! t
               = Some (mkTimer DeferredPlay 100 (now (handleStop s) + 100) true)).
  { unfold handleReplay. cbn [setTimeout snd set_timers timers].
    apply list_lookup_middle. subst t.
    rewrite handleStop_cleanup. cbn [setCurrentStanzaIndex setPlayState timers].
    rewrite cleanup_timers. case_match; [rewrite length_alter|]; reflexivity. }
  assert (Hs1 : exists s2, s1 = handlePlay s2 /\ quiet s2 /\ entered s2 = entered s).
  { eexists. split; [|split].
    - subst s1. cbn [Player.dispatch set_now timers]. rewrite Hl.
      cbn [callback run_callback]. reflexivity.
    - intros a au H. apply (quiet_release s Hqs a au). exact H.
    - destruct (handleStop_view s) as (_ & _ & _ & _ & H). exact H. }
  destruct Hs1 as (s2 & -> & Hq2 & He2).
  destruct (Hgen s2 es' s' Hq2 Hrun') as (k' & He' & _ & _ & _ & Hk').
  destruct (Hk' Hend') as [-> _].
  rewrite He', He2, He. reflexivity.
Qed.

End Sequencer.

(** ** The buttons *)

(** X11. Whatever the state, the render offers at least one button and no
    button twice; stop is offered exactly while playing or paused, in both
    renders; play and replay are offered only in the single-stanza render;
    and a button is rendered exactly when its click is an event the page
    can receive. *)
Theorem buttons_offered s :
  buttons s <> [] /\ NoDup (buttons s) /\
  (BtnStop ∈ buttons s <-> playState s = playing \/ playState s = paused) /\
  (BtnPlay ∈ buttons s \/ BtnReplay ∈ buttons s -> showAll s = false) /\
  (forall b, b ∈ buttons s <-> enabled s (onClick b) = true).
Proof.
  destruct s as [ps i sa r fr aus tms n c].
  unfold buttons, enabled. cbn [playState showAll].
  split; [|split; [|split; [|split]]].
  - destruct ps, sa; discriminate.
  - destruct ps, sa; apply (bool_decide_unpack _); vm_compute; exact I.
  - destruct ps, sa; apply (bool_decide_unpack _); vm_compute; exact I.
  - destruct ps, sa; apply (bool_decide_unpack _); vm_compute; exact I.
  - intros b. destruct ps, sa, b; apply (bool_decide_unpack _); vm_compute; exact I.
Qed.

(** ** Witnesses on a two-stanza list *)

Lemma timers_have_fixed_delays_witness :
  let stanzas := [["a"]; ["b"]] in
  let s := dispatch stanzas (AudioError 0) (dispatch stanzas ClickPlay init) in
  reachable stanzas s /\
  timers s !! 1 = Some (mkTimer (FallbackAdvance 1) 10000 10000 true) /\
  (10000 <= 10000)%N.
Proof.
  intros stanzas s.
  assert (Hs : reachable stanzas s).
  { repeat (eapply reachable_step; [|split; [|reflexivity]; reflexivity]).
    apply reachable_init. }
  assert (Ht : timers s !! 1 = Some (mkTimer (FallbackAdvance 1) 10000 10000 true))
    by reflexivity.
  split; [exact Hs|]. split; [exact Ht|].
  exact (proj1 (timers_have_fixed_delays stanzas s 1 _ Hs Ht)).
Defined.

Lemma assets_follow_naming_witness :
  let stanzas := [["a"]; ["b"]] in
  let s := dispatch stanzas ClickPlay init in
  reachable stanzas s /\ audios s !! 0 = Some (entering 0) /\
  src (entering 0) = "/sounds/stanza1.wav".
Proof.
  intros stanzas s.
  assert (Hs : reachable stanzas s).
  { repeat (eapply reachable_step; [|split; [|reflexivity]; reflexivity]).
    apply reachable_init. }
  assert (Ha : audios s !! 0 = Some (entering 0)) by reflexivity.
  split; [exact Hs|]. split; [exact Ha|].
  exact (proj1 (assets_follow_naming stanzas s 0 _ Hs Ha)).
Defined.

Lemma audioPath_inj_witness : audioPath 9 = audioPath 9 /\ 9 = 9.
Proof.
  assert (H : audioPath 9 = audioPath 9) by reflexivity.
  split; [exact H|exact (audioPath_inj 9 9 H)].
Defined.

Lemma release_spares_probes_witness :
  let stanzas := [["a"]; ["b"]] in
  let s := dispatch stanzas ClickPlay init in
  reachable stanzas s /\
  timers s !! 0 = Some (probing 0 0) /\
  timers (handleStop s) !! 0 = Some (probing 0 0).
Proof.
  intros stanzas s.
  assert (Hs : reachable stanzas s).
  { repeat (eapply reachable_step; [|split; [|reflexivity]; reflexivity]).
    apply reachable_init. }
  assert (Ht : timers s !! 0 = Some (probing 0 0)) by reflexivity.
  assert (Hc : forall next, callback (probing 0 0) <> FallbackAdvance next)
    by (intros next; discriminate).
  split; [exact Hs|]. split; [exact Ht|].
  exact (proj1 (release_spares_probes stanzas s 0 _ Hs Ht Hc)).
Defined.

Lemma shown_stanza_exists_witness :
  let stanzas := [["a"]; ["b"]] in
  let s := dispatch stanzas ClickPlay init in
  reachable stanzas s /\ playState s = playing /\
  exists lines, stanzas !! currentStanzaIndex s = Some lines /\
                currentLines stanzas s = lines.
Proof.
  intros stanzas s.
  assert (Hs : reachable stanzas s).
  { repeat (eapply reachable_step; [|split; [|reflexivity]; reflexivity]).
    apply reachable_init. }
  assert (Hp : playState s = playing) by reflexivity.
  split; [exact Hs|]. split; [exact Hp|].
  exact (proj1 (shown_stanza_exists stanzas s Hs (or_introl Hp))).
Defined.

Lemma one_stanza_highlighted_witness :
  let stanzas := [["a"]; ["b"]] in
  let s := dispatch stanzas ClickShowAll (dispatch stanzas ClickPlay init) in
  reachable stanzas s /\
  highlights stanzas s =
    if bool_decide (playState s = playing) then [currentStanzaIndex s] else [].
Proof.
  intros stanzas s.
  assert (Hs : reachable stanzas s).
  { repeat (eapply reachable_step; [|split; [|reflexivity]; reflexivity]).
    apply reachable_init. }
  split; [exact Hs|]. exact (one_stanza_highlighted stanzas s Hs).
Defined.

Lemma host_events_never_start_playback_witness :
  let stanzas := [["a"]] in
  let s := handleStop (dispatch stanzas ClickPlay init) in
  from_host (AudioEnded 0) = true /\ runs_handlePlay (AudioEnded 0) s = false /\
  (playState (dispatch stanzas (AudioEnded 0) s) = playState s \/
   playState (dispatch stanzas (AudioEnded 0) s) = ended).
Proof.
  intros stanzas s.
  assert (H1 : from_host (AudioEnded 0) = true) by reflexivity.
  assert (H2 : runs_handlePlay (AudioEnded 0) s = false) by reflexivity.
  split; [exact H1|]. split; [exact H2|].
  exact (host_events_never_start_playback stanzas (AudioEnded 0) s H1 H2).
Defined.

Lemma replay_defers_play_witness :
  let stanzas := [["a"]; ["b"]] in
  0 < length stanzas /\
  playState (handleReplay init) = idle /\
  timers (handleReplay init) !! 0 = Some (mkTimer DeferredPlay 100 100 true).
Proof.
  intros stanzas.
  assert (HN : 0 < length stanzas) by (cbn; lia).
  split; [exact HN|].
  destruct (replay_defers_play stanzas init HN) as ((Hp & _) & (Ht & _) & _).
  split; [exact Hp|exact Ht].
Defined.

Lemma play_again_traverses_all_witness :
  let stanzas := [["a"]] in
  let es := [AudioCanPlay 0; PlayResolved 0; AudioEnded 0] in
  let s := dispatch stanzas (AudioEnded 0)
             (dispatch stanzas (PlayResolved 0)
                (dispatch stanzas (AudioCanPlay 0) (handlePlay stanzas init))) in
  quiet init /\ run_timely stanzas es (handlePlay stanzas init) = Some s /\
  playState s = ended /\
  exists k, entered s = entered init ++ seq 0 k /\ k <= length stanzas.
Proof.
  intros stanzas es s.
  assert (Hq : quiet init) by (intros a au H; discriminate H).
  assert (Hrun : run_timely stanzas es (handlePlay stanzas init) = Some s)
    by (vm_compute; reflexivity).
  destruct (play_again_traverses_all stanzas init es s Hq Hrun)
    as ((k & He & Hk & _) & _).
  split; [exact Hq|]. split; [exact Hrun|]. split; [reflexivity|].
  exists k. split; [exact He|exact Hk].
Defined.


End PlayerMore.

(** * The rest of the speech driver: events, clips and the engine *)
Module SpeechMore.
Import Speech SpeechFacts.

Section Driver.

Variable calavera : DOMString.

Local Abbreviation dispatch := (dispatch calavera).
Local Abbreviation after := (after calavera).
Local Abbreviation handlePlay := (handlePlay calavera).
Local Abbreviation onboundary := (onboundary calavera).
Local Abbreviation steps_check := (steps_check calavera).
Local Abbreviation chains_check := (chains_check calavera).
Local Abbreviation plays_on := (plays_on calavera).
Local Abbreviation driver_inv := (driver_inv calavera).
Local Abbreviation newUtterance := (newUtterance calavera).

Lemma after_snoc host evs ev : after host (evs ++ [ev]) = dispatch ev (after host evs).
Proof. unfold Speech.after. rewrite foldl_app. reflexivity. Qed.

(** ** The listener hears every state change *)

Lemma playSoundEffect_frame effect s :
  audioState (playSoundEffect effect s) = audioState s /\
  notified (playSoundEffect effect s) = notified s /\
  synth (playSoundEffect effect s) = synth s /\
  utteranceRef (playSoundEffect effect s) = utteranceRef s /\
  isSupported (playSoundEffect effect s) = isSupported s /\
  alerts (playSoundEffect effect s) = alerts s.
Proof. unfold playSoundEffect. case_match; repeat split. Qed.

Lemma onboundary_frame c s :
  audioState (onboundary c s) = audioState s /\
  notified (onboundary c s) = notified s /\
  synth (onboundary c s) = synth s /\
  utteranceRef (onboundary c s) = utteranceRef s /\
  isSupported (onboundary c s) = isSupported s /\
  alerts (onboundary c s) = alerts s.
Proof.
  unfold Speech.onboundary.
  destruct (chains_check c), (steps_check c);
    repeat match goal with
    | |- context [playSoundEffect ?e ?x] =>
        destruct (playSoundEffect_frame e x) as (-> & -> & -> & -> & -> & ->)
    end; repeat split.
Qed.

Lemma clip_plays_on_frame effect ms s :
  audioState (clip_plays_on effect ms s) = audioState s /\
  notified (clip_plays_on effect ms s) = notified s /\
  synth (clip_plays_on effect ms s) = synth s /\
  utteranceRef (clip_plays_on effect ms s) = utteranceRef s /\
  isSupported (clip_plays_on effect ms s) = isSupported s /\
  alerts (clip_plays_on effect ms s) = alerts s.
Proof. unfold clip_plays_on. repeat case_match; repeat split. Qed.

Lemma notify_in_sync p s : in_sync (onStateChange p (setAudioState p s)).
Proof. unfold in_sync. cbn. rewrite last_snoc. reflexivity. Qed.

Lemma in_sync_frame s s' :
  audioState s' = audioState s -> notified s' = notified s -> in_sync s -> in_sync s'.
Proof. unfold in_sync. intros -> ->. exact id. Qed.

Lemma dispatch_in_sync ev s : in_sync s -> in_sync (dispatch ev s).
Proof.
  intros Hs. destruct ev as [| | | | | | |c|effect ms]; cbn [Speech.dispatch].
  - unfold Speech.handlePlay. repeat case_match; exact Hs.
  - unfold handlePause. repeat case_match; try exact Hs. apply notify_in_sync.
  - unfold handleResume. repeat case_match; try exact Hs. apply notify_in_sync.
  - unfold handleStop. case_match; [apply notify_in_sync|exact Hs].
  - unfold onstart.
    destruct (playSoundEffect_frame "dramatic" (onStateChange playing (setAudioState playing s)))
      as (H1 & H2 & _).
    eapply in_sync_frame; [exact H1|exact H2|apply notify_in_sync].
  - unfold onend.
    destruct (playSoundEffect_frame "laugh"
                (onStateChange ended (setAudioState ended (drop_spoken s))))
      as (H1 & H2 & _).
    eapply in_sync_frame; [exact H1|exact H2|apply notify_in_sync].
  - apply notify_in_sync.
  - destruct (onboundary_frame c s) as (H1 & H2 & _).
    eapply in_sync_frame; [exact H1|exact H2|exact Hs].
  - destruct (clip_plays_on_frame effect ms s) as (H1 & H2 & _).
    eapply in_sync_frame; [exact H1|exact H2|exact Hs].
Qed.

(** X12. After any sequence of events on a freshly mounted driver, the state
    the listener was told last is the state of the driver ([idle] if it was
    never told): every change of [audioState] is announced, and nothing else
    is. *)
Theorem listener_in_sync host evs :
  audioState (after host evs) = default idle (last (notified (after host evs))).
Proof.
  induction evs as [|ev evs IH] using rev_ind; [reflexivity|].
  rewrite after_snoc. apply dispatch_in_sync, IH.
Qed.

(** ** The sound-effect clips *)

Lemma clips_inv_present s k :
  clips_inv s -> k ∈ (fst <$> soundFiles) -> is_Some (soundEffectsRef s !! k).
Proof.
  intros Hs Hk. specialize (Hs k). destruct (soundEffectsRef s !! k); [eauto|].
  destruct (Hs Hk).
Qed.

Lemma clips_inv_mount host : clips_inv (mount host).
Proof.
  intros k. unfold mount, soundFiles. cbn [soundEffectsRef foldl].
  rewrite !lookup_insert.
  repeat (case_decide; [subst k; cbn; split; [set_solver|split; [reflexivity|intros _; reflexivity]]|]).
  rewrite lookup_empty. cbn. rewrite !not_elem_of_cons.
  repeat split; try congruence. apply not_elem_of_nil.
Qed.

Lemma clips_inv_play effect s : clips_inv s -> clips_inv (playSoundEffect effect s).
Proof.
  intros Hs k. unfold playSoundEffect.
  destruct (soundEffectsRef s !! effect) as [audio|] eqn:He; [|exact (Hs k)].
  cbn [set_soundEffects soundEffectsRef]. rewrite lookup_insert.
  case_decide as Hk; [subst k|exact (Hs k)].
  specialize (Hs effect). rewrite He in Hs. destruct Hs as (H1 & H2 & _).
  cbn. split; [exact H1|split; [exact H2|intros _; reflexivity]].
Qed.

Lemma clips_inv_plays_on effect ms s : clips_inv s -> clips_inv (clip_plays_on effect ms s).
Proof.
  intros Hs k. unfold clip_plays_on.
  destruct (soundEffectsRef s !! effect) as [c|] eqn:He; [|exact (Hs k)].
  case_bool_decide as Hp; [exact (Hs k)|].
  cbn [set_soundEffects soundEffectsRef]. rewrite lookup_insert.
  case_decide as Hk; [subst k|exact (Hs k)].
  specialize (Hs effect). rewrite He in Hs. destruct Hs as (H1 & H2 & _).
  cbn. split; [exact H1|split; [exact H2|intros H0; destruct (Hp H0)]].
Qed.

Lemma clips_inv_frame s s' :
  soundEffectsRef s' = soundEffectsRef s -> clips_inv s -> clips_inv s'.
Proof. unfold clips_inv. intros ->. exact id. Qed.

Lemma soundEffects_click ev s :
  is_click ev = true -> soundEffectsRef (dispatch ev s) = soundEffectsRef s.
Proof.
  destruct ev; try discriminate; intros _; cbn [Speech.dispatch].
  - unfold Speech.handlePlay. repeat case_match; reflexivity.
  - unfold handlePause. repeat case_match; reflexivity.
  - unfold handleResume. repeat case_match; reflexivity.
  - unfold handleStop. case_match; reflexivity.
Qed.

Lemma soundEffects_drop_spoken s : soundEffectsRef (drop_spoken s) = soundEffectsRef s.
Proof. unfold drop_spoken. case_match; reflexivity. Qed.

Lemma dispatch_clips_inv ev s : clips_inv s -> clips_inv (dispatch ev s).
Proof.
  intros Hs. destruct ev as [| | | | | | |c|effect ms];
    try (eapply clips_inv_frame; [apply soundEffects_click; reflexivity|exact Hs]);
    cbn [Speech.dispatch].
  - apply clips_inv_play. exact Hs.
  - apply clips_inv_play. eapply clips_inv_frame; [|exact Hs].
    cbn. apply soundEffects_drop_spoken.
  - eapply clips_inv_frame; [|exact Hs]. cbn. apply soundEffects_drop_spoken.
  - unfold Speech.onboundary.
    destruct (chains_check c), (steps_check c); repeat apply clips_inv_play; exact Hs.
  - apply clips_inv_plays_on, Hs.
Qed.

Lemma after_clips_inv host evs : clips_inv (after host evs).
Proof.
  induction evs as [|ev evs IH] using rev_ind; [apply clips_inv_mount|].
  rewrite after_snoc. apply dispatch_clips_inv, IH.
Qed.

(** X13. After any sequence of events on a freshly mounted driver (clicks,
    utterance events, started clips playing on) the clip table holds exactly
    the four effects of [soundFiles], each with its own path and preloaded;
    and an event that calls for an effect leaves its clip rewound to the
    start, whatever position the clip had reached. *)
Theorem clips_stay_preloaded host evs k :
  let s := after host evs in
  (is_Some (soundEffectsRef s !! k) <-> k ∈ (fst <$> soundFiles)) /\
  (forall c, soundEffectsRef s !! k = Some c ->
     (k, clip_path c) ∈ soundFiles /\ preload c = "auto") /\
  (forall ev, plays_on k ev = true ->
     exists c, soundEffectsRef (dispatch ev s) !! k = Some c /\ currentTime c = 0%N).
Proof.
  intros s. pose proof (after_clips_inv host evs) as Hs. fold s in Hs.
  split; [|split].
  - split; [|apply clips_inv_present, Hs].
    intros [c Hc]. specialize (Hs k). rewrite Hc in Hs.
    exact (list_elem_of_fmap_2 fst soundFiles _ (proj1 Hs)).
  - intros c Hc. specialize (Hs k). rewrite Hc in Hs.
    split; [exact (proj1 Hs)|exact (proj1 (proj2 Hs))].
  - intros ev Hev.
    assert (Hplay : forall s0, clips_inv s0 -> is_Some (soundEffectsRef s0 !! k) ->
              exists c, soundEffectsRef (playSoundEffect k s0) !! k = Some c /\
                        currentTime c = 0%N).
    { intros s0 _ [c Hc]. unfold playSoundEffect. rewrite Hc.
      cbn [set_soundEffects soundEffectsRef]. rewrite lookup_insert_eq.
      eexists. split; reflexivity. }
    destruct ev as [| | | | | | |c|other ms]; try discriminate Hev;
      cbn [Speech.plays_on] in Hev; cbn [Speech.dispatch].
    + apply bool_decide_eq_true in Hev. subst k. unfold onstart.
      apply Hplay; [eapply clips_inv_frame; [|exact Hs]; reflexivity|].
      apply (clips_inv_present s); [exact Hs|unfold soundFiles; cbn; set_solver].
    + apply bool_decide_eq_true in Hev. subst k. unfold onend.
      assert (Hs' : clips_inv (onStateChange ended (setAudioState ended (drop_spoken s)))).
      { eapply clips_inv_frame; [|exact Hs]. cbn. apply soundEffects_drop_spoken. }
      apply Hplay; [exact Hs'|].
      apply clips_inv_present; [exact Hs'|unfold soundFiles; cbn; set_solver].
    + unfold Speech.onboundary.
      apply orb_true_iff in Hev as [Hev|Hev];
        apply andb_true_iff in Hev as [Hk Hc]; apply bool_decide_eq_true in Hk; subst k;
        rewrite Hc.
      * assert (H1 : exists c0, soundEffectsRef (playSoundEffect "chains" s) !! "chains" = Some c0
                                /\ currentTime c0 = 0%N).
        { apply Hplay; [exact Hs|].
          apply clips_inv_present; [exact Hs|unfold soundFiles; cbn; set_solver]. }
        destruct (steps_check c); [|exact H1].
        destruct H1 as (c0 & H1 & H2). exists c0. split; [|exact H2].
        unfold playSoundEffect at 1. case_match; [|exact H1].
        cbn [set_soundEffects soundEffectsRef]. rewrite lookup_insert_ne by discriminate.
        exact H1.
      * set (s1 := if chains_check c then playSoundEffect "chains" s else s).
        assert (Hs1 : clips_inv s1).
        { subst s1. destruct (chains_check c); [apply clips_inv_play|]; exact Hs. }
        apply Hplay; [exact Hs1|].
        apply clips_inv_present; [exact Hs1|unfold soundFiles; cbn; set_solver].
Qed.

Lemma fired_play effect k s :
  is_Some (soundEffectsRef s !! k) ->
  fired k (playSoundEffect effect s) =
    fired k s + (if bool_decide (k = effect) then 1 else 0).
Proof.
  intros Hk. destruct (decide (k = effect)) as [->|Hne].
  - rewrite bool_decide_eq_true_2 by reflexivity.
    rewrite (proj1 (fired_play_same effect s Hk)). lia.
  - rewrite bool_decide_eq_false_2 by exact Hne.
    rewrite (proj1 (fired_play_other k effect s Hne)). lia.
Qed.

Lemma fired_frame k s s' :
  soundEffectsRef s' = soundEffectsRef s -> fired k s' = fired k s.
Proof. unfold fired. intros ->. reflexivity. Qed.

Lemma fired_plays_on k effect ms s : fired k (clip_plays_on effect ms s) = fired k s.
Proof.
  unfold clip_plays_on, fired.
  destruct (soundEffectsRef s !! effect) as [c|] eqn:He; [|reflexivity].
  case_bool_decide; [reflexivity|].
  cbn [set_soundEffects soundEffectsRef]. rewrite lookup_insert.
  case_decide as Hk; [subst k; rewrite He|]; reflexivity.
Qed.

Lemma dispatch_fired effect ev s :
  clips_inv s -> effect ∈ (fst <$> soundFiles) ->
  fired effect (dispatch ev s) = fired effect s + (if plays_on effect ev then 1 else 0).
Proof.
  intros Hs Hk. pose proof (clips_inv_present s effect Hs Hk) as Hp.
  destruct ev as [| | | | | | |c|other ms];
    try (rewrite (fired_frame effect s) by (apply soundEffects_click; reflexivity);
         cbn; lia);
    cbn [Speech.dispatch Speech.plays_on].
  - unfold onstart. rewrite fired_play by exact Hp.
    rewrite (fired_frame effect s) by reflexivity. reflexivity.
  - unfold onend. rewrite fired_play; [|cbn; rewrite soundEffects_drop_spoken; exact Hp].
    rewrite (fired_frame effect s) by (cbn; apply soundEffects_drop_spoken). reflexivity.
  - rewrite (fired_frame effect s) by (cbn; apply soundEffects_drop_spoken). lia.
  - unfold Speech.onboundary.
    set (s1 := if chains_check c then playSoundEffect "chains" s else s).
    assert (H1 : fired effect s1 = fired effect s
                 + (if bool_decide (effect = "chains") && chains_check c then 1 else 0)
               /\ is_Some (soundEffectsRef s1 !! effect)).
    { subst s1. destruct (chains_check c).
      - rewrite fired_play by exact Hp. rewrite andb_true_r. split; [reflexivity|].
        apply clips_inv_present; [apply clips_inv_play, Hs|exact Hk].
      - rewrite andb_false_r. split; [lia|exact Hp]. }
    destruct H1 as [H1 Hp1].
    assert (H2 : fired effect (if steps_check c then playSoundEffect "steps" s1 else s1)
                 = fired effect s1
                 + (if bool_decide (effect = "steps") && steps_check c then 1 else 0)).
    { destruct (steps_check c).
      - rewrite fired_play by exact Hp1. rewrite andb_true_r. reflexivity.
      - rewrite andb_false_r. lia. }
    rewrite H2, H1.
    destruct (decide (effect = "chains")) as [->|Hc].
    + rewrite (bool_decide_eq_false_2 ("chains" = "steps")) by discriminate.
      cbn [andb]. rewrite orb_false_r. lia.
    + rewrite (bool_decide_eq_false_2 (effect = "chains")) by exact Hc.
      cbn [andb orb]. lia.
  - rewrite fired_plays_on. lia.
Qed.

(** X14. After any sequence of events on a freshly mounted driver, each of
    the four clips has been started once for every event that calls for it
    and never otherwise: "dramatic" once per start of an utterance, "laugh"
    once per end, "chains" and "steps" once per boundary that passes their
    check; clicks and errors start no clip. *)
Theorem effects_follow_events host evs effect :
  effect ∈ (fst <$> soundFiles) ->
  fired effect (after host evs) = count_events (plays_on effect) evs.
Proof.
  intros Hk. induction evs as [|ev evs IH] using rev_ind.
  - unfold Speech.after, count_events. cbn [foldl]. rewrite filter_nil. cbn [length].
    pose proof (clips_inv_mount host effect) as Hm. unfold fired.
    destruct (soundEffectsRef (mount host) !! effect) as [c|] eqn:Hc; [|reflexivity].
    revert Hc. unfold mount, soundFiles. cbn [soundEffectsRef foldl].
    rewrite !lookup_insert.
    repeat (case_decide; [intros [= <-]; reflexivity|]).
    rewrite lookup_empty. discriminate.
  - rewrite after_snoc, dispatch_fired by (apply after_clips_inv || exact Hk).
    rewrite IH. unfold count_events. rewrite filter_app, length_app, filter_cons, filter_nil.
    destruct (plays_on effect ev); [rewrite decide_True by reflexivity|rewrite decide_False by discriminate];
      reflexivity.
Qed.

(** X15. The "steps" trigger has no upper guard: once the consumed text
    contains the trigger, the check holds at every later boundary as well,
    and each such boundary starts the clip again. *)
Theorem steps_keeps_firing i j s :
  i <= j -> steps_check i = true -> clips_inv s ->
  steps_check j = true /\
  fired "steps" (onboundary j s) = S (fired "steps" s).
Proof.
  intros Hij Hi Hs.
  assert (Hj : steps_check j = true)
    by exact (includes_prefix_mono calavera trigger_steps i j Hij Hi).
  split; [exact Hj|].
  change (onboundary j s) with (dispatch (UtteranceBoundary j) s).
  rewrite dispatch_fired; [|exact Hs|unfold soundFiles; cbn; set_solver].
  cbn [Speech.plays_on]. rewrite Hj.
  rewrite (bool_decide_eq_false_2 ("steps" = "chains")) by discriminate.
  rewrite (bool_decide_eq_true_2 ("steps" = "steps")) by reflexivity.
  cbn. lia.
Qed.

(** ** The engine *)

(** X16. Of the enumerated voices, [handlePlay] takes the first whose
    language starts with "es": voices before it that are not Spanish are
    passed over, and Spanish voices after it are not considered. *)
Theorem spanishVoice_first (vs1 vs2 : list Voice) v :
  (forall x, x ∈ vs1 -> startsWith (voice_lang x) (utf16 "es") = false) ->
  startsWith (voice_lang v) (utf16 "es") = true ->
  spanishVoice (vs1 ++ v :: vs2) = Some v /\
  voice (newUtterance (vs1 ++ v :: vs2)) = Some v.
Proof.
  intros Hno Hv.
  assert (H : spanishVoice (vs1 ++ v :: vs2) = Some v).
  { unfold spanishVoice. induction vs1 as [|x vs1 IH]; cbn [app List.find].
    - rewrite Hv. reflexivity.
    - rewrite (Hno x) by (apply list_elem_of_here).
      apply IH. intros y Hy. apply Hno. apply list_elem_of_further, Hy. }
  split; [exact H|exact H].
Qed.

(** X17. Pause and resume are guarded by the engine: pause does nothing
    unless the engine is speaking and not paused, resume does nothing unless
    it is paused; on an engine that is speaking, pause followed by resume
    leaves the engine as it was, the driver [playing], and the listener told
    [paused] then [playing]. *)
Theorem pause_resume_guarded s e :
  synth s = Some e ->
  (speaking e = false \/ synth_paused e = true -> handlePause s = s) /\
  (synth_paused e = false -> handleResume s = s) /\
  (speaking e = true -> synth_paused e = false ->
   let s2 := handleResume (handlePause s) in
   synth s2 = Some e /\ audioState s2 = playing /\
   notified s2 = notified s ++ [paused; playing] /\
   utteranceRef s2 = utteranceRef s /\ soundEffectsRef s2 = soundEffectsRef s).
Proof.
  intros He. split; [|split].
  - intros H. unfold handlePause. rewrite He.
    destruct H as [-> | ->]; [reflexivity|]. rewrite andb_false_r. reflexivity.
  - intros H. unfold handleResume. rewrite He, H. reflexivity.
  - intros Hsp Hnp s2. subst s2. unfold handlePause. rewrite He, Hsp, Hnp.
    cbn [andb negb]. unfold handleResume. cbn.
    destruct e as [q p vs]. cbn in Hnp. subst p. cbn.
    rewrite <- app_assoc. repeat split.
Qed.

Lemma handlePlay_driver_inv host s : driver_inv host s -> driver_inv host (handlePlay s).
Proof.
  intros [Hsup Hs]. unfold Speech.handlePlay.
  destruct (negb (isSupported s)) eqn:Hn; [split; [exact Hsup|exact Hs]|].
  destruct (synth s) as [e|] eqn:He; [|split; [exact Hsup|rewrite He; exact Hs]].
  destruct host as [h|]; [|destruct Hs].
  split; [exact Hsup|]. cbn. destruct Hs as [Hv _].
  split; [exact Hv|]. right. split; reflexivity.
Qed.

Lemma driver_inv_queue host s e q :
  synth s = Some e -> (q = queue e \/ q = [] \/ q = tail (queue e)) ->
  forall p st nt,
  driver_inv host s ->
  driver_inv host
    (mkState st (isSupported s) (utteranceRef s) (soundEffectsRef s)
       (Some (mkSynth q p (voices e))) (alerts s) nt).
Proof.
  intros He Hq p st nt [Hsup Hs]. rewrite He in Hs.
  split; [exact Hsup|]. cbn. destruct host as [h|]; [|destruct Hs].
  destruct Hs as [Hv Hqs]. split; [exact Hv|].
  destruct Hq as [-> | [-> | ->]]; [exact Hqs|left; reflexivity|].
  left. destruct Hqs as [-> | [-> _]]; reflexivity.
Qed.

Lemma driver_inv_frame host s s' :
  isSupported s' = isSupported s -> synth s' = synth s ->
  utteranceRef s' = utteranceRef s ->
  driver_inv host s -> driver_inv host s'.
Proof. unfold Speech.driver_inv. intros -> -> ->. exact id. Qed.

Lemma drop_spoken_driver_inv host s : driver_inv host s -> driver_inv host (drop_spoken s).
Proof.
  intros Hs. unfold drop_spoken. destruct (synth s) as [e|] eqn:He; [|exact Hs].
  apply (driver_inv_queue host s e (tail (queue e)) He); auto.
Qed.

Lemma dispatch_driver_inv host ev s : driver_inv host s -> driver_inv host (dispatch ev s).
Proof.
  intros Hs. destruct ev as [| | | | | | |c|effect ms]; cbn [Speech.dispatch].
  - apply handlePlay_driver_inv, Hs.
  - unfold handlePause. destruct (synth s) as [e|] eqn:He; [|exact Hs].
    case_match; [|exact Hs].
    apply (driver_inv_queue host s e (queue e) He); auto.
  - unfold handleResume. destruct (synth s) as [e|] eqn:He; [|exact Hs].
    case_match; [|exact Hs].
    apply (driver_inv_queue host s e (queue e) He); auto.
  - unfold handleStop. destruct (synth s) as [e|] eqn:He; [|exact Hs].
    apply (driver_inv_queue host s e [] He); auto.
  - unfold onstart.
    destruct (playSoundEffect_frame "dramatic" (onStateChange playing (setAudioState playing s)))
      as (_ & _ & H1 & H2 & H3 & _).
    eapply driver_inv_frame; [exact H3|exact H1|exact H2|exact Hs].
  - unfold onend.
    destruct (playSoundEffect_frame "laugh"
                (onStateChange ended (setAudioState ended (drop_spoken s))))
      as (_ & _ & H1 & H2 & H3 & _).
    eapply driver_inv_frame; [exact H3|exact H1|exact H2|].
    apply (driver_inv_frame host (drop_spoken s)); [reflexivity..|].
    apply drop_spoken_driver_inv, Hs.
  - apply (driver_inv_frame host (drop_spoken s)); [reflexivity..|].
    apply drop_spoken_driver_inv, Hs.
  - destruct (onboundary_frame c s) as (_ & _ & H1 & H2 & H3 & _).
    eapply driver_inv_frame; [exact H3|exact H1|exact H2|exact Hs].
  - destruct (clip_plays_on_frame effect ms s) as (_ & _ & H1 & H2 & H3 & _).
    eapply driver_inv_frame; [exact H3|exact H1|exact H2|exact Hs].
Qed.

Lemma after_driver_inv host evs :
  (forall h, host = Some h -> queue h = []) -> driver_inv host (after host evs).
Proof.
  intros Hq. induction evs as [|ev evs IH] using rev_ind.
  - unfold Speech.after. cbn [foldl]. split; [reflexivity|].
    unfold mount. cbn. destruct host as [h|]; [|reflexivity].
    split; [reflexivity|]. left. apply Hq. reflexivity.
  - rewrite after_snoc. apply dispatch_driver_inv, IH.
Qed.

(** X18. On a host whose queue is empty at mount, after any sequence of
    events the engine has at most one utterance queued, and a queued
    utterance is the one [handlePlay] built last (full text, first Spanish
    voice, preset rate, pitch and volume), held in [utteranceRef]; the
    voices are those of the host; without an engine the driver never holds
    an utterance, and [isSupported] says which of the two it is. *)
Theorem at_most_one_utterance host evs :
  (forall h, host = Some h -> queue h = []) ->
  let s := after host evs in
  isSupported s = bool_decide (is_Some host) /\
  match synth s with
  | Some e =>
      length (queue e) <= 1 /\
      (forall u, u ∈ queue e ->
         u = newUtterance (voices e) /\ utteranceRef s = Some u) /\
      (exists h, host = Some h /\ voices e = voices h)
  | None => host = None /\ utteranceRef s = None
  end.
Proof.
  intros Hq s. destruct (after_driver_inv host evs Hq) as [Hsup Hs].
  fold s in Hsup, Hs. split; [exact Hsup|].
  destruct (synth s) as [e|]; destruct host as [h|];
    [|destruct Hs|destruct Hs|].
  - destruct Hs as [Hv Hqs]. split; [|split; [|eauto]].
    + destruct Hqs as [-> | [-> _]]; cbn; lia.
    + intros u Hu. destruct Hqs as [H0|[H1 Hr]].
      * rewrite H0 in Hu. apply elem_of_nil in Hu. destruct Hu.
      * rewrite H1 in Hu. apply list_elem_of_singleton in Hu. subst u. auto.
  - split; [reflexivity|exact Hs].
Qed.

(** X19. On a host without speech synthesis no click ever leaves [idle]:
    play only alerts (one alert per click on play), and no utterance is
    built, no engine touched and no listener told. *)
Theorem unsupported_host_refuses evs :
  Forall (fun ev => is_click ev = true) evs ->
  let s := after None evs in
  audioState s = idle /\ notified s = [] /\ synth s = None /\
  utteranceRef s = None /\ soundEffectsRef s = soundEffectsRef (mount None) /\
  length (alerts s) = count_events is_play evs.
Proof.
  intros Hev s. subst s.
  induction evs as [|ev evs IH] using rev_ind.
  - unfold Speech.after, count_events. cbn [foldl]. rewrite filter_nil. repeat split.
  - apply Forall_app in Hev as [Hevs Hev]. rewrite Forall_singleton in Hev.
    destruct (IH Hevs) as (H1 & H2 & H3 & H4 & H5 & H6).
    assert (Hsup : isSupported (after None evs) = false).
    { apply (after_driver_inv None evs). intros h H. discriminate H. }
    rewrite after_snoc. unfold count_events in *.
    rewrite filter_app, length_app, filter_cons, filter_nil.
    set (s := after None evs) in *.
    destruct ev; try discriminate Hev; cbn [Speech.dispatch is_play].
    + unfold Speech.handlePlay. rewrite Hsup. cbn. rewrite length_app, H6.
      rewrite decide_True by reflexivity. repeat split; assumption.
    + unfold handlePause. rewrite H3, decide_False by discriminate.
      cbn. rewrite Nat.add_0_r. repeat split; assumption.
    + unfold handleResume. rewrite H3, decide_False by discriminate.
      cbn. rewrite Nat.add_0_r. repeat split; assumption.
    + unfold handleStop. rewrite H3, decide_False by discriminate.
      cbn. rewrite Nat.add_0_r. repeat split; assumption.
Qed.

(** ** Unmounting *)




End Driver.

(** ** Witnesses on concrete narrations *)

Lemma effects_follow_events_witness :
  let calavera := utf16 "la Calaca" in
  let host := Some (mkSynth [] false []) in
  let evs := [ClickPlay; UtteranceStart; UtteranceBoundary 3; UtteranceEnd] in
  "laugh" ∈ (fst <$> soundFiles) /\
  fired "laugh" (after calavera host evs) = count_events (plays_on calavera "laugh") evs /\
  count_events (plays_on calavera "laugh") evs = 1.
Proof.
  intros calavera host evs.
  assert (Hk : "laugh" ∈ (fst <$> soundFiles))
    by (apply (bool_decide_unpack _); vm_compute; exact I).
  split; [exact Hk|]. split; [|reflexivity].
  exact (effects_follow_events calavera host evs "laugh" Hk).
Defined.

Lemma steps_keeps_firing_witness :
  let calavera := (trigger_steps ++ utf16 " y luego")%list in
  11 <= 13 /\ steps_check calavera 11 = true /\ steps_check calavera 13 = true /\
  fired "steps" (onboundary calavera 13 (mount None)) = 1.
Proof.
  intros calavera.
  assert (H1 : 11 <= 13) by lia.
  assert (H2 : steps_check calavera 11 = true) by (vm_compute; reflexivity).
  destruct (steps_keeps_firing calavera 11 13 (mount None) H1 H2 (clips_inv_mount None))
    as [H3 H4].
  split; [exact H1|]. split; [exact H2|]. split; [exact H3|exact H4].
Defined.

Lemma spanishVoice_first_witness :
  let alex := mkVoice "Alex" (utf16 "en-US") in
  let paulina := mkVoice "Paulina" (utf16 "es-MX") in
  let jorge := mkVoice "Jorge" (utf16 "es-ES") in
  startsWith (voice_lang paulina) (utf16 "es") = true /\
  spanishVoice ([alex] ++ paulina :: [jorge]) = Some paulina.
Proof.
  intros alex paulina jorge.
  assert (Hv : startsWith (voice_lang paulina) (utf16 "es") = true) by reflexivity.
  assert (Hno : forall x, x ∈ [alex] -> startsWith (voice_lang x) (utf16 "es") = false).
  { intros x Hx. apply list_elem_of_singleton in Hx. subst x. reflexivity. }
  split; [exact Hv|].
  exact (proj1 (spanishVoice_first (utf16 "la Calaca") [alex] [jorge] paulina Hno Hv)).
Defined.

Lemma pause_resume_guarded_witness :
  let calavera := utf16 "la Calaca" in
  let s := handlePlay calavera (mount (Some (mkSynth [] false []))) in
  let e := mkSynth [newUtterance calavera []] false [] in
  synth s = Some e /\ speaking e = true /\ synth_paused e = false /\
  audioState (handleResume (handlePause s)) = playing.
Proof.
  intros calavera s e.
  assert (He : synth s = Some e) by reflexivity.
  assert (H1 : speaking e = true) by reflexivity.
  assert (H2 : synth_paused e = false) by reflexivity.
  destruct (pause_resume_guarded s e He) as (_ & _ & H).
  destruct (H H1 H2) as (_ & Hp & _).
  split; [exact He|]. split; [exact H1|]. split; [exact H2|exact Hp].
Defined.

Lemma at_most_one_utterance_witness :
  let calavera := utf16 "la Calaca" in
  let host := Some (mkSynth [] false []) in
  (forall h, host = Some h -> queue h = []) /\
  isSupported (after calavera host [ClickPlay; ClickPlay]) = true.
Proof.
  intros calavera host.
  assert (Hq : forall h, host = Some h -> queue h = []).
  { intros h [= <-]. reflexivity. }
  split; [exact Hq|].
  exact (proj1 (at_most_one_utterance calavera host [ClickPlay; ClickPlay] Hq)).
Defined.

Lemma unsupported_host_refuses_witness :
  let calavera := utf16 "la Calaca" in
  let evs := [ClickPlay; ClickStop; ClickPlay] in
  Forall (fun ev => is_click ev = true) evs /\
  audioState (after calavera None evs) = idle /\
  length (alerts (after calavera None evs)) = count_events is_play evs.
Proof.
  intros calavera evs.
  assert (Hev : Forall (fun ev => is_click ev = true) evs)
    by (repeat constructor).
  destruct (unsupported_host_refuses calavera evs Hev) as (H1 & _ & _ & _ & _ & H6).
  split; [exact Hev|]. split; [exact H1|exact H6].
Defined.


End SpeechMore.
